(** * Target Shootout: a shallow embedding of the browser client and of the
      relational schema it writes to.

    The client (three React pages: the landing page, the lobby page and the
    game page) talks to a hosted Postgres database through a query builder
    ([from(table).insert/update/delete ... .eq(column, value)]).  The model
    has these layers:

    - [Js]: the JavaScript builtins the handlers use (string case mapping,
      [substring], [trim], [toString(36)], [Math.min], [Math.max],
      [Math.ceil], [Math.sqrt], [Array.find]);
    - [Db]: rows, write statements and their meaning on a database that
      enforces the column defaults, the CHECK constraints and the
      row-level-security policies of the migration;
    - [Ui]: the effects of a handler (statements, toasts, navigation, timers);
    - [Game], [Index], [LobbyPage]: the handlers of the three pages, as
      functions from what a handler reads (the values of the render that
      created it, the responses of the awaited queries, the results of
      [Math.random]) to the effects it issues and the React state it leaves;
    - [Spec]: the vocabulary of the properties; [Sample]: concrete inputs.

    Numbers: INTEGER columns and the wave counter are [Z].  The other
    numbers (coordinates, intensities, [Math.random()]) are the finite
    binary64 values, kept as the rationals [Q] they are: [Js.round64] takes a
    rational to the nearest binary64 number, and [Js.add], [Js.sub],
    [Js.mul], [Js.div] and [Js.Math_sqrt] are the exact operations followed
    by it.  Target generation, the hit test and drawing compute with these.
    The time step and the movement of the player ([Play.gameLoop],
    [Game.new_position]) are computed exactly: what is proved of them are
    guards, bounds and comparisons, not computed values.  Infinities and NaN
    are not modelled.

    Strings are ASCII strings ([Js.ascii_only]): the case mappings and
    [trim] are modelled on that range only.

    Left out of [Db]: timestamps and their trigger, the NOT NULL, UNIQUE and
    FOREIGN KEY constraints, the range of INTEGER and the rounding of REAL
    to single precision.  The constraints can only reject a statement that
    the model accepts, so an invariant proved of every database the model
    can reach holds of the ones the schema lets through; no theorem
    concludes that an INSERT is accepted. *)

From Stdlib Require Import ZArith QArith Qround Qminmax Qpower Reals Qreals Lia Psatz Ascii String.
From stdpp Require Import gmap strings list fin_maps pretty.

Local Open Scope Z_scope.

(** ** JavaScript builtins *)

Module Js.

(** The strings the builtins below are modelled on: every character is an
    ASCII one.  On these a JavaScript string and its list of bytes are the
    same thing, and the case mappings and [trim] do what is written here. *)
Definition ascii_only (s : string) : bool :=
  forallb (fun c => (nat_of_ascii c <? 128)%nat) (list_ascii_of_string s).

(** [String.prototype.toUpperCase], on ASCII strings. *)
Definition toUpperCase_char (c : ascii) : ascii :=
  let n := nat_of_ascii c in
  if ((97 <=? n) && (n <=? 122))%nat then ascii_of_nat (n - 32) else c.

Fixpoint toUpperCase (s : string) : string :=
  match s with
  | EmptyString => EmptyString
  | String c r => String (toUpperCase_char c) (toUpperCase r)
  end.

(** [s.substring(a, b)] for [0 <= a <= b]: characters [a .. b-1], fewer
    when [s] is shorter. *)
Definition substring (a b : nat) (s : string) : string :=
  String.substring a (b - a) s.

Definition is_space (c : ascii) : bool :=
  let n := nat_of_ascii c in
  ((n =? 32) || ((9 <=? n) && (n <=? 13)))%nat.

Fixpoint trimStart (s : string) : string :=
  match s with
  | EmptyString => EmptyString
  | String c r => if is_space c then trimStart r else s
  end.

(** [s.trim() === ''], which is what [!s.trim()] tests: [s] is blank (on
    ASCII strings, whose white space is the space and the characters 9 to
    13). *)
Definition blank (s : string) : bool :=
  match trimStart s with
  | EmptyString => true
  | _ => false
  end.

(** [s.trim()], on ASCII strings. *)
Definition trim (s : string) : string :=
  String.rev (trimStart (String.rev (trimStart s))).

Definition alphabet36 : string := "0123456789abcdefghijklmnopqrstuvwxyz".

Definition digit36 (d : nat) : ascii :=
  match String.get (d mod 36) alphabet36 with
  | Some c => c
  | None => "0"%char
  end.

(** [x.toString(36)] for a number [0 <= x < 1]; [frac] lists the base-36
    digits that the conversion prints after the point (none when [x = 0]). *)
Definition toString36 (frac : list nat) : string :=
  match frac with
  | [] => "0"
  | _ => "0." +:+ string_of_list_ascii (map digit36 frac)
  end.

(** *** Numbers: binary64 *)

Definition pow2 (k : Z) : Q := (2 ^ k)%Q.

(** [floor(log2 q)] for [q > 0]. *)
Definition ilog2 (q : Q) : Z :=
  let k := Z.log2 (Qnum q) - Z.log2 (Z.pos (Qden q)) in
  if Qle_bool (pow2 k) q then k else k - 1.

(** The integer nearest to [x]; the even one of the two when [x] is half
    way between them. *)
Definition rne (x : Q) : Z :=
  let f := Qfloor x in
  match (x - inject_Z f ?= 1 # 2)%Q with
  | Lt => f
  | Gt => f + 1
  | Eq => if Z.even f then f else f + 1
  end.

(** The exponent of the last binary place that a format of [prec] bits and
    least exponent [emin] keeps of [q > 0]. *)
Definition last_place (prec emin : Z) (q : Q) : Z :=
  Z.max emin (ilog2 q - (prec - 1)).

Definition round_pos (prec emin : Z) (q : Q) : Q :=
  (inject_Z (rne (q / pow2 (last_place prec emin q))) * pow2 (last_place prec emin q))%Q.

(** Rounding to nearest, ties to even, with gradual underflow and without
    overflow. *)
Definition round (prec emin : Z) (q : Q) : Q :=
  match Qnum (Qred q) with
  | Z0 => 0%Q
  | Zpos _ => round_pos prec emin (Qred q)
  | Zneg _ => (- round_pos prec emin (- Qred q))%Q
  end.

(** The binary64 number nearest to [q]. *)
Definition round64 : Q -> Q := round 53 (-1074).

(** [q] is a binary64 number. *)
Definition double (q : Q) : Prop := (round64 q == q)%Q.

(** [a + b], [a - b], [a * b] and [a / b] (for [b] other than 0). *)
Definition add (a b : Q) : Q := round64 (a + b).
Definition sub (a b : Q) : Q := round64 (a - b).
Definition mul (a b : Q) : Q := round64 (a * b).
Definition div (a b : Q) : Q := round64 (a / b).

(** [Math.sqrt(s)] for [s >= 0], correctly rounded: [m] is the integer part
    of the root scaled to 53 bits, and the comparison with
    [(m + 1/2)^2 = m^2 + m + 1/4] settles the last bit. *)
Definition Math_sqrt (s : Q) : Q :=
  match Qnum (Qred s) with
  | Zpos _ =>
      let e := ilog2 (Qred s) / 2 - 52 in
      let scaled := (Qred s / pow2 (2 * e))%Q in
      let m := Z.sqrt (Qfloor scaled) in
      let m' := match (scaled ?= inject_Z (m * m + m) + (1 # 4))%Q with
                | Lt => m
                | Gt => m + 1
                | Eq => if Z.even m then m else m + 1
                end in
      (inject_Z m' * pow2 e)%Q
  | _ => 0%Q
  end.

(** [Math.min], [Math.max] on the two kinds of numbers. *)
Definition Math_min_Z : Z -> Z -> Z := Z.min.
Definition Math_max_Z : Z -> Z -> Z := Z.max.
Definition Math_min : Q -> Q -> Q := Qmin.
Definition Math_max : Q -> Q -> Q := Qmax.

(** [Math.ceil]. *)
Definition Math_ceil (x : Q) : Z := Qceiling x.

(** [Math.pow(x, 2)]: the rounded square, which is what the engines return
    for the exponent 2. *)
Definition Math_pow2 (x : Q) : Q := mul x x.

(** [array.find(pred)]: the first element that satisfies [pred]. *)
Fixpoint find {A} (pred : A -> bool) (l : list A) : option A :=
  match l with
  | [] => None
  | a :: r => if pred a then Some a else find pred r
  end.

(** [a !== b] on numbers. *)
Definition neq (a b : Q) : bool := negb (Qeq_bool a b).

(** [String.prototype.toLowerCase], on ASCII strings. *)
Definition toLowerCase_char (c : ascii) : ascii :=
  let n := nat_of_ascii c in
  if ((65 <=? n) && (n <=? 90))%nat then ascii_of_nat (n + 32) else c.

Fixpoint toLowerCase (s : string) : string :=
  match s with
  | EmptyString => EmptyString
  | String c r => String (toLowerCase_char c) (toLowerCase r)
  end.

(** [Math.floor]. *)
Definition Math_floor (x : Q) : Z := Qfloor x.

(** [a < b] on numbers. *)
Definition lt (a b : Q) : bool := negb (Qle_bool b a).

Arguments round64 : simpl never.
Arguments add : simpl never.
Arguments sub : simpl never.
Arguments mul : simpl never.
Arguments div : simpl never.
Arguments Math_sqrt : simpl never.

End Js.

(** ** The database *)

Module Db.

(** A field of the JSONB payload of [game_events.data]. *)
Inductive json : Type :=
| JUndefined
| JNum (n : Z)
| JStr (s : string).

(** A column value. *)
Inductive value : Type :=
| VNull
| VBool (b : bool)
| VInt (n : Z)
| VReal (q : Q)
| VStr (s : string)
| VJson (fields : list (string * json)).

(** A row, and also the object literal handed to [insert] or [update]. *)
Abbreviation row := (gmap string value).

Inductive Table : Type := Profiles | Lobbies | GamePlayers | Targets | GameEvents.

Definition Table_eqb (a b : Table) : bool :=
  match a, b with
  | Profiles, Profiles | Lobbies, Lobbies | GamePlayers, GamePlayers
  | Targets, Targets | GameEvents, GameEvents => true
  | _, _ => false
  end.

(** One [.eq(column, v)]; [None] is the JavaScript [undefined] that
    [user?.id] yields when nobody is signed in. *)
Definition filter : Type := string * option value.

(** SQL [column = v]: NULL equals nothing. *)
Definition value_eqb (a b : value) : bool :=
  match a, b with
  | VBool x, VBool y => Bool.eqb x y
  | VInt x, VInt y => Z.eqb x y
  | VReal x, VReal y => Qeq_bool x y
  | VStr x, VStr y => String.eqb x y
  | _, _ => false
  end.

Definition matches_filter (r : row) (f : filter) : bool :=
  match f.2, r !! f.1 with
  | Some v, Some x => value_eqb x v
  | _, _ => false
  end.

Definition matches (fs : list filter) (r : row) : bool :=
  forallb (matches_filter r) fs.

(** The write statements of the query builder. *)
Inductive dbop : Type :=
| Insert (t : Table) (rows : list row)
| Update (t : Table) (payload : row) (fs : list filter)
| Delete (t : Table) (fs : list filter).

Definition table_of (op : dbop) : Table :=
  match op with
  | Insert t _ | Update t _ _ | Delete t _ => t
  end.

Definition db : Type := Table -> list row.

Definition empty : db := fun _ => [].

Definition set_table (t : Table) (rs : list row) (d : db) : db :=
  fun t' => if Table_eqb t t' then rs else d t'.

(** Column defaults of the migration (constant ones; [id] is generated). *)
Definition defaults (t : Table) : row :=
  match t with
  | Profiles =>
      list_to_map [("avatar_color", VStr "#FF6B6B"); ("total_score", VInt 0);
                   ("games_played", VInt 0)]
  | Lobbies =>
      list_to_map [("max_players", VInt 4); ("current_players", VInt 0);
                   ("status", VStr "waiting"); ("wave_number", VInt 1)]
  | GamePlayers =>
      list_to_map [("position_x", VReal 50); ("position_y", VReal 50);
                   ("health", VInt 100); ("score", VInt 0);
                   ("is_alive", VBool true)]
  | Targets => list_to_map [("health", VInt 1); ("is_active", VBool true)]
  | GameEvents => ∅
  end.

Definition lobby_statuses : list string := ["waiting"; "playing"; "finished"].

Definition event_types : list string :=
  ["shot"; "hit"; "target_destroyed"; "player_damaged"; "wave_complete"].

Definition mem_string (s : string) (l : list string) : bool :=
  existsb (String.eqb s) l.

(** [CHECK (column IN (...))]: passes on NULL, as every SQL CHECK does. *)
Definition check_in (l : list string) (v : option value) : bool :=
  match v with
  | Some (VStr s) => mem_string s l
  | Some VNull | None => true
  | Some _ => false
  end.

(** [CHECK (color_intensity >= 0 AND color_intensity <= 1)]. *)
Definition check_intensity (v : option value) : bool :=
  match v with
  | Some (VReal q) => Qle_bool 0 q && Qle_bool q 1
  | Some (VInt n) => (0 <=? n) && (n <=? 1)
  | Some VNull | None => true
  | Some _ => false
  end.

Definition check_constraint (t : Table) (r : row) : bool :=
  match t with
  | Lobbies => check_in lobby_statuses (r !! "status")
  | Targets => check_intensity (r !! "color_intensity")
  | GameEvents => check_in event_types (r !! "event_type")
  | Profiles | GamePlayers => true
  end.

(** [auth.uid() = column]. *)
Definition owned_by (auth : option string) (col : string) (r : row) : bool :=
  match auth, r !! col with
  | Some u, Some (VStr o) => String.eqb u o
  | _, _ => false
  end.

(** [EXISTS (SELECT 1 FROM game_players gp WHERE gp.lobby_id = r.lobby_id
    AND gp.player_id = auth.uid())]. *)
Definition member_of_lobby (d : db) (auth : option string) (r : row) : bool :=
  existsb (fun gp =>
             match gp !! "lobby_id", r !! "lobby_id" with
             | Some a, Some b => value_eqb a b
             | _, _ => false
             end && owned_by auth "player_id" gp)
          (d GamePlayers).

(** Row-level security: the USING expression of the UPDATE policies. *)
Definition using_update (auth : option string) (t : Table) (r : row) : bool :=
  match t with
  | Profiles => owned_by auth "user_id" r
  | Lobbies => owned_by auth "host_id" r
  | GamePlayers => owned_by auth "player_id" r
  | Targets => true
  | GameEvents => false
  end.

(** Only [targets] has a policy that covers DELETE (FOR ALL USING (true)). *)
Definition using_delete (auth : option string) (t : Table) (r : row) : bool :=
  match t with
  | Targets => true
  | _ => false
  end.

(** The WITH CHECK expression of the INSERT policies. *)
Definition with_check_insert (d : db) (auth : option string) (t : Table) (r : row) : bool :=
  match t with
  | Profiles => owned_by auth "user_id" r
  | Lobbies => owned_by auth "host_id" r
  | GamePlayers => owned_by auth "player_id" r
  | Targets => true
  | GameEvents => member_of_lobby d auth r
  end.

(** The stored row of an inserted object: given columns win over defaults. *)
Definition stored (t : Table) (new_id : string) (r : row) : row :=
  r ∪ <["id" := VStr new_id]> (defaults t).

Definition updated (payload r : row) : row := payload ∪ r.

(** Meaning of one statement run as [auth]; [gen_random_uuid i] is the id
    given to the [i]-th inserted row.  A statement that violates a CHECK
    or a WITH CHECK is rejected as a whole; rows hidden by a USING
    expression are skipped silently. *)
Definition exec (auth : option string) (gen_random_uuid : nat -> string)
    (d : db) (op : dbop) : db :=
  match op with
  | Insert t rows =>
      let new := imap (fun i r => stored t (gen_random_uuid i) r) rows in
      if forallb (fun r => check_constraint t r && with_check_insert d auth t r) new
      then set_table t (d t ++ new) d
      else d
  | Update t payload fs =>
      let hit r := matches fs r && using_update auth t r in
      if forallb (fun r => negb (hit r) ||
                           (check_constraint t (updated payload r) &&
                            using_update auth t (updated payload r))) (d t)
      then set_table t (map (fun r => if hit r then updated payload r else r) (d t)) d
      else d
  | Delete t fs =>
      set_table t
        (List.filter (fun r => negb (matches fs r && using_delete auth t r)) (d t)) d
  end.

Definition exec_all (auth : option string) (gen_random_uuid : nat -> string)
    (d : db) (ops : list dbop) : db :=
  fold_left (exec auth gen_random_uuid) ops d.

(** [.select('*').eq(...).single()]: the row when exactly one matches. *)
Definition select (d : db) (t : Table) (fs : list filter) : list row :=
  List.filter (matches fs) (d t).


End Db.

(** ** What a handler can do besides returning *)

Module Ui.

Inductive callback : Type := NextWave.

Inductive variant : Type := Default | Destructive.

Inductive effect : Type :=
| Write (op : Db.dbop)
| Toast (title description : string) (v : variant)
| Navigate (path : string)
| SetTimeout (cb : callback) (ms : Z)
| ConsoleError (msg : string).

(** The statements among the effects, in order. *)
Definition writes (es : list effect) : list Db.dbop :=
  omap (fun e => match e with Write op => Some op | _ => None end) es.

Definition writes_to (t : Db.Table) (es : list effect) : list Db.dbop :=
  List.filter (fun op => Db.Table_eqb t (Db.table_of op)) (writes es).

(** What an awaited query resolves to: it throws, or it returns the pair
    [{ data, error }]. *)
Inductive response (A : Type) : Type :=
| Throws
| Returns (data : option A) (error : option string).
Arguments Throws {A}.
Arguments Returns {A} data error.

(** [a === b] between a string and a possibly undefined string. *)
Definition same_id (a : string) (b : option string) : bool :=
  match b with
  | Some b => String.eqb a b
  | None => false
  end.

Definition str (o : option string) : option Db.value := Db.VStr <$> o.

End Ui.

(** ** The game page *)

Module Game.
Import Js Db Ui.

Module Player.
Record t : Type := {
  id : string;
  player_id : string;
  position_x : Q;
  position_y : Q;
  health : Z;
  score : Z;
  is_alive : bool;
  username : string;
  avatar_color : string
}.
End Player.

Module Target.
Record t : Type := {
  id : string;
  position_x : Q;
  position_y : Q;
  color_intensity : Q;
  health : Z;
  points : Z;
  is_active : bool
}.
End Target.

Inductive GameStatus : Type := playing | wave_complete | game_over.

Record GameState : Type := {
  players : list Player.t;
  targets : list Target.t;
  wave : Z;
  gameStatus : GameStatus
}.

(** What one render of the component sees: the route parameter, the signed-in
    user's id and the React state.  A handler created in that render reads
    these values from its closure; the functional updates
    [setGameState(prev => ...)] act on the live state instead. *)
Record Hooks : Type := {
  lobbyId : option string;
  user : option string;
  gameState : GameState;
  myPlayer : option Player.t;
  keys : gset string
}.

Definition initial (lobbyId user : option string) : Hooks :=
  {| lobbyId := lobbyId; user := user;
     gameState := {| players := []; targets := []; wave := 1; gameStatus := playing |};
     myPlayer := None; keys := ∅ |}.

Definition setGameState (f : GameState -> GameState) (h : Hooks) : Hooks :=
  {| lobbyId := lobbyId h; user := user h; gameState := f (gameState h);
     myPlayer := myPlayer h; keys := keys h |}.

Definition setMyPlayer (p : Player.t) (h : Hooks) : Hooks :=
  {| lobbyId := lobbyId h; user := user h; gameState := gameState h;
     myPlayer := Some p; keys := keys h |}.

Definition with_players (ps : list Player.t) (prev : GameState) : GameState :=
  {| players := ps; targets := targets prev; wave := wave prev;
     gameStatus := gameStatus prev |}.

Definition with_targets (ts : list Target.t) (prev : GameState) : GameState :=
  {| players := players prev; targets := ts; wave := wave prev;
     gameStatus := gameStatus prev |}.

Definition with_status (s : GameStatus) (prev : GameState) : GameState :=
  {| players := players prev; targets := targets prev; wave := wave prev;
     gameStatus := s |}.

Definition next_wave_state (prev : GameState) : GameState :=
  {| players := players prev; targets := targets prev; wave := wave prev + 1;
     gameStatus := playing |}.

(** The object built by one iteration of the loop of [generateTargets].
    [random] lists the results of the successive calls of [Math.random];
    iteration [i] makes the calls number [3i], [3i+1] and [3i+2]. *)
Definition new_target (lobby : string) (random : nat -> Q) (i : nat) : row :=
  let colorIntensity := random (3 * i)%nat in
  let points := Math_ceil (mul (sub 1 colorIntensity) 10) in
  list_to_map
    [("lobby_id", VStr lobby);
     ("position_x", VReal (mul (random (3 * i + 1)%nat) 800));
     ("position_y", VReal (mul (random (3 * i + 2)%nat) 600));
     ("color_intensity", VReal colorIntensity);
     ("health", VInt (Math_ceil (mul colorIntensity 3) + 1));
     ("points", VInt points);
     ("is_active", VBool true)].

(** [for (let i = ...; i < targetsToGenerate; i++) newTargets.push(target)],
    with [todo] iterations left. *)
Fixpoint generate_loop (lobby : string) (random : nat -> Q) (i todo : nat) : list row :=
  match todo with
  | O => []
  | S todo' => new_target lobby random i :: generate_loop lobby random (S i) todo'
  end.

Definition targetsToGenerate (h : Hooks) : Z :=
  Math_min_Z (5 + wave (gameState h)) 15.

Definition generateTargets (h : Hooks) (random : nat -> Q) : list effect :=
  match lobbyId h with
  | None => []
  | Some lobby =>
      let newTargets := generate_loop lobby random 0 (Z.to_nat (targetsToGenerate h)) in
      [Write (Insert Targets newTargets)]
  end.

(** [fetchGameState]; the two arguments are the [data] fields of the two
    awaited selects (all players of the lobby, its active targets). *)
Definition fetchGameState (h : Hooks)
    (playersResult : option (list Player.t)) (targetsResult : option (list Target.t))
    (live : Hooks) : Hooks * list effect :=
  match lobbyId h with
  | None => (live, [])
  | Some _ =>
      let live1 :=
        match playersResult with
        | Some ps =>
            let l := setGameState (with_players ps) live in
            match find (fun p => same_id (Player.player_id p) (user h)) ps with
            | Some me => setMyPlayer me l
            | None => l
            end
        | None => live
        end in
      match targetsResult with
      | Some ts =>
          let live2 := setGameState (with_targets ts) live1 in
          if (length ts =? 0)%nat
          then (setGameState (with_status wave_complete) live2, [SetTimeout NextWave 2000])
          else (live2, [])
      | None => (live1, [])
      end
  end.

Definition nextWave (h : Hooks) (random : nat -> Q) (live : Hooks) : Hooks * list effect :=
  (setGameState next_wave_state live,
   generateTargets h random ++
   [Toast ("Wave " +:+ pretty (wave (gameState h) + 1)) "New targets incoming!" Default]).

(** What the timer armed by [fetchGameState] runs when it fires. *)
Definition run_callback (cb : callback) (h : Hooks) (random : nat -> Q) (live : Hooks)
    : Hooks * list effect :=
  match cb with
  | NextWave => nextWave h random live
  end.

(** [initializeGame]; [players] is the [data] of its select. *)
Definition initializeGame (h : Hooks) (players : option (list Player.t))
    (random : nat -> Q) (live : Hooks) : Hooks * list effect :=
  match lobbyId h, user h with
  | Some _, Some u =>
      let live1 :=
        match players with
        | Some ps =>
            let l := setGameState (with_players ps) live in
            match find (fun p => String.eqb (Player.player_id p) u) ps with
            | Some me => setMyPlayer me l
            | None => l
            end
        | None => live
        end in
      (live1, generateTargets h random)
  | _, _ => (live, [])
  end.

Definition has (h : Hooks) (key : string) : bool := bool_decide (key ∈ keys h).

Definition speed : Q := 200.

(** The position computed by [updatePlayerPosition], after clamping.  The
    steps are computed exactly. *)
Definition new_position (h : Hooks) (me : Player.t) (deltaTime : Q) : Q * Q :=
  let newX := Player.position_x me in
  let newY := Player.position_y me in
  let newY := if has h "w" || has h "arrowup" then (newY - speed * deltaTime)%Q else newY in
  let newY := if has h "s" || has h "arrowdown" then (newY + speed * deltaTime)%Q else newY in
  let newX := if has h "a" || has h "arrowleft" then (newX - speed * deltaTime)%Q else newX in
  let newX := if has h "d" || has h "arrowright" then (newX + speed * deltaTime)%Q else newX in
  let newX := Math_max 20 (Math_min 780 newX) in
  let newY := Math_max 20 (Math_min 580 newY) in
  (newX, newY).

Definition own_row (h : Hooks) (lobby : string) : list filter :=
  [("lobby_id", Some (VStr lobby)); ("player_id", str (user h))].

Definition updatePlayerPosition (h : Hooks) (deltaTime : Q) : list effect :=
  match myPlayer h, lobbyId h with
  | Some me, Some lobby =>
      let '(newX, newY) := new_position h me deltaTime in
      if neq newX (Player.position_x me) || neq newY (Player.position_y me)
      then [Write (Update GamePlayers
                     (list_to_map [("position_x", VReal newX); ("position_y", VReal newY)])
                     (own_row h lobby))]
      else []
  | _, _ => []
  end.

(** The [distance] computed by the predicate handed to [find] in [shoot]. *)
Definition distance (targetX targetY : Q) (target : Target.t) : Q :=
  Math_sqrt
    (add (Math_pow2 (sub (Target.position_x target) targetX))
         (Math_pow2 (sub (Target.position_y target) targetY))).

(** The predicate itself. *)
Definition in_hit_radius (targetX targetY : Q) (target : Target.t) : bool :=
  lt (distance targetX targetY target) 25.

Definition shot_event (h : Hooks) (lobby : string) (hit : Target.t) (newHealth : Z) : row :=
  list_to_map
    [("lobby_id", VStr lobby);
     ("event_type", VStr (if newHealth <=? 0 then "target_destroyed" else "hit"));
     ("data", VJson [("player_id", from_option JStr JUndefined (user h));
                     ("target_id", JStr (Target.id hit));
                     ("damage", JNum 1);
                     ("points_earned", JNum (if newHealth <=? 0 then Target.points hit else 0))])].

Definition shoot (h : Hooks) (targetX targetY : Q) : list effect :=
  match myPlayer h, lobbyId h with
  | Some me, Some lobby =>
      match find (in_hit_radius targetX targetY) (targets (gameState h)) with
      | Some hitTarget =>
          let newHealth := Target.health hitTarget - 1 in
          (if newHealth <=? 0
           then [Write (Update Targets {[ "is_active" := VBool false ]}
                          [("id", Some (VStr (Target.id hitTarget)))]);
                 Write (Update GamePlayers
                          {[ "score" := VInt (Player.score me + Target.points hitTarget) ]}
                          (own_row h lobby));
                 Toast ("+" +:+ pretty (Target.points hitTarget) +:+ " points!")
                       "Target destroyed!" Default]
           else [Write (Update Targets {[ "health" := VInt newHealth ]}
                          [("id", Some (VStr (Target.id hitTarget)))])])
          ++ [Write (Insert GameEvents [shot_event h lobby hitTarget newHealth])]
      | None => []
      end
  | _, _ => []
  end.

Definition leaveGame (h : Hooks) : list effect :=
  match lobbyId h, user h with
  | Some lobby, Some u =>
      [Write (Delete GamePlayers [("lobby_id", Some (VStr lobby)); ("player_id", Some (VStr u))]);
       Navigate "/"]
  | _, _ => []
  end.

End Game.

(** ** The landing page *)

Module Index.
Import Js Db Ui.

Record Hooks : Type := {
  user : option string;
  joinCode : string;
  lobbyName : string
}.

(** The code drawn by [createLobby];  [frac] stands for [Math.random()]. *)
Definition new_code (frac : list nat) : string :=
  toUpperCase (substring 2 8 (toString36 frac)).

(** [createLobby]; [res] is what the awaited insert resolves to. *)
Definition createLobby (h : Hooks) (frac : list nat) (res : option row * option string)
    : list effect :=
  match user h with
  | None => []
  | Some u =>
      if blank (lobbyName h) then []
      else
        let code := new_code frac in
        Write (Insert Lobbies
                 [list_to_map [("code", VStr code); ("name", VStr (trim (lobbyName h)));
                               ("host_id", VStr u); ("current_players", VInt 0)]])
        :: match res with
           | (_, Some message) => [Toast "Failed to create lobby" message Destructive]
           | (Some _, None) =>
               [Toast "Lobby created!" ("Lobby code: " +:+ code) Default;
                Navigate ("/lobby/" +:+ code)]
           | (None, None) => []
           end
  end.

Definition joinLobby (code : string) : list effect :=
  if blank code then [] else [Navigate ("/lobby/" +:+ toUpperCase code)].

Definition joinLobbyByCode (h : Hooks) : list effect :=
  if blank (joinCode h) then [] else joinLobby (joinCode h).

End Index.

(** ** The lobby page *)

Module LobbyPage.
Import Js Db Ui.

Module Lobby.
Record t : Type := {
  id : string;
  code : string;
  name : string;
  max_players : Z;
  current_players : Z;
  status : string;
  host_id : string
}.
End Lobby.

Module GamePlayer.
Record t : Type := {
  id : string;
  player_id : string;
  username : string;
  avatar_color : string
}.
End GamePlayer.

Record Hooks : Type := {
  user : option string;
  lobby : option Lobby.t;
  players : list GamePlayer.t;
  loading : bool
}.

Definition setLobby (l : Lobby.t) (h : Hooks) : Hooks :=
  {| user := user h; lobby := Some l; players := players h; loading := loading h |}.

Definition setPlayers (ps : list GamePlayer.t) (h : Hooks) : Hooks :=
  {| user := user h; lobby := lobby h; players := ps; loading := loading h |}.

Definition setLoading (b : bool) (h : Hooks) : Hooks :=
  {| user := user h; lobby := lobby h; players := players h; loading := b |}.

(** The database as [joinLobby] meets it: one field per awaited query, from
    what the query asks to what it resolves to. *)
Record Server : Type := {
  select_lobby : list filter -> response Lobby.t;
  select_player : list filter -> response row;
  insert_player : row -> response unit;
  update_lobby : row -> list filter -> response unit;
  select_players : list filter -> response (list GamePlayer.t)
}.

(** [fetchPlayers]: it reads [lobby] from the closure. *)
Definition fetchPlayers (h : Hooks) (srv : Server) (live : Hooks) : option Hooks :=
  match lobby h with
  | None => Some live
  | Some l =>
      match select_players srv [("lobby_id", Some (VStr (Lobby.id l)))] with
      | Throws => None
      | Returns (Some data) None => Some (setPlayers data live)
      | Returns _ _ => Some live
      end
  end.

(** The [catch] block of [joinLobby]. *)
Definition on_error : list effect :=
  [ConsoleError "Error joining lobby:"; Navigate "/"].

(** The object [{ lobby_id, player_id: user?.id }]: an undefined property is
    not sent. *)
Definition membership (lobby_id : string) (user : option string) : row :=
  match user with
  | Some u => list_to_map [("lobby_id", VStr lobby_id); ("player_id", VStr u)]
  | None => {[ "lobby_id" := VStr lobby_id ]}
  end.

Definition joinLobby (h : Hooks) (lobbyCode : string) (srv : Server) (live : Hooks)
    : Hooks * list effect :=
  match select_lobby srv [("code", Some (VStr (toUpperCase lobbyCode)))] with
  | Throws => (live, on_error)
  | Returns None _ | Returns _ (Some _) =>
      (live,
       [Toast "Lobby not found" "Please check the lobby code and try again." Destructive;
        Navigate "/"])
  | Returns (Some lobbyData) None =>
      let live := setLobby lobbyData live in
      let finish (done : list effect) :=
        match fetchPlayers h srv live with
        | None => (live, done ++ on_error)
        | Some live => (setLoading false live, done)
        end in
      match select_player srv [("lobby_id", Some (VStr (Lobby.id lobbyData)));
                               ("player_id", str (user h))] with
      | Throws => (live, on_error)
      | Returns (Some existingPlayer) _ => finish []
      | Returns None _ =>
          let new := membership (Lobby.id lobbyData) (user h) in
          let join := Write (Insert GamePlayers [new]) in
          match insert_player srv new with
          | Throws => (live, join :: on_error)
          | Returns _ (Some message) =>
              (live, [join; Toast "Failed to join lobby" message Destructive; Navigate "/"])
          | Returns _ None =>
              let count : row :=
                {[ "current_players" := VInt (Lobby.current_players lobbyData + 1) ]} in
              let at_lobby := [("id", Some (VStr (Lobby.id lobbyData)))] in
              match update_lobby srv count at_lobby with
              | Throws => (live, [join; Write (Update Lobbies count at_lobby)] ++ on_error)
              | Returns _ _ => finish [join; Write (Update Lobbies count at_lobby)]
              end
          end
      end
  end.

(** [startGame]; [error] is the [error] field the awaited update resolves to. *)
Definition startGame (h : Hooks) (error : option string) : list effect :=
  match lobby h with
  | None => []
  | Some l =>
      if negb (same_id (Lobby.host_id l) (user h)) then []
      else
        Write (Update Lobbies {[ "status" := VStr "playing" ]}
                 [("id", Some (VStr (Lobby.id l)))])
        :: match error with
           | Some message => [Toast "Failed to start game" message Destructive]
           | None => []
           end
  end.

Definition leaveLobby (h : Hooks) : list effect :=
  match lobby h, user h with
  | Some l, Some u =>
      [Write (Delete GamePlayers [("lobby_id", Some (VStr (Lobby.id l)));
                                  ("player_id", Some (VStr u))]);
       Write (Update Lobbies
                {[ "current_players" := VInt (Math_max_Z 0 (Lobby.current_players l - 1)) ]}
                [("id", Some (VStr (Lobby.id l)))]);
       Navigate "/"]
  | _, _ => []
  end.

End LobbyPage.

(** ** Vocabulary of the properties *)

Module Spec.
Import Js Db Ui.

(** Euclidean distance between the click and the centre of a target, as a
    real number. *)
Definition distance (x y : Q) (t : Game.Target.t) : R :=
  sqrt ((Q2R (Game.Target.position_x t) - Q2R x) * (Q2R (Game.Target.position_x t) - Q2R x) +
        (Q2R (Game.Target.position_y t) - Q2R y) * (Q2R (Game.Target.position_y t) - Q2R y)).

(** The target is within 25 pixels of the click by the distance that the
    handler computes in binary64. *)
Definition within_25 (x y : Q) (t : Game.Target.t) : Prop :=
  (Game.distance x y t < 25)%Q.

(** [t] is the first target of the list [ts] within 25 pixels of the click. *)
Definition first_within (x y : Q) (ts : list Game.Target.t) (t : Game.Target.t) : Prop :=
  exists before after,
    ts = before ++ t :: after /\ within_25 x y t /\
    Forall (fun u => ~ within_25 x y u) before.

(** The object [{ position_x, position_y }] sent by [updatePlayerPosition]. *)
Definition position_payload (p : Q * Q) : row :=
  list_to_map [("position_x", VReal p.1); ("position_y", VReal p.2)].

(** The position computed for this frame is not the one the player has. *)
Definition moved (h : Game.Hooks) (me : Game.Player.t) (deltaTime : Q) : Prop :=
  ~ ((Game.new_position h me deltaTime).1 == Game.Player.position_x me /\
     (Game.new_position h me deltaTime).2 == Game.Player.position_y me)%Q.

(** The live states of the game page: what the handlers can make of the
    initial state.  Every render, hence every closure, sees one of them. *)
Inductive game_state : Game.Hooks -> Prop :=
| gs_initial lobbyId user : game_state (Game.initial lobbyId user)
| gs_initializeGame h players random live :
    game_state live -> game_state (Game.initializeGame h players random live).1
| gs_fetchGameState h playersResult targetsResult live :
    game_state live -> game_state (Game.fetchGameState h playersResult targetsResult live).1
| gs_nextWave h random live :
    game_state live -> game_state (Game.nextWave h random live).1
| gs_setKeys ks live :
    game_state live ->
    game_state {| Game.lobbyId := Game.lobbyId live; Game.user := Game.user live;
                  Game.gameState := Game.gameState live;
                  Game.myPlayer := Game.myPlayer live; Game.keys := ks |}.

(** Every statement a handler of the client can send. *)
Inductive issues : dbop -> Prop :=
| by_createLobby h frac res op :
    In op (writes (Index.createLobby h frac res)) -> issues op
| by_index_joinLobby code op :
    In op (writes (Index.joinLobby code)) -> issues op
| by_joinLobbyByCode h op :
    In op (writes (Index.joinLobbyByCode h)) -> issues op
| by_joinLobby h lobbyCode srv live op :
    In op (writes (LobbyPage.joinLobby h lobbyCode srv live).2) -> issues op
| by_startGame h error op :
    In op (writes (LobbyPage.startGame h error)) -> issues op
| by_leaveLobby h op :
    In op (writes (LobbyPage.leaveLobby h)) -> issues op
| by_initializeGame h players random live op :
    In op (writes (Game.initializeGame h players random live).2) -> issues op
| by_fetchGameState h playersResult targetsResult live op :
    In op (writes (Game.fetchGameState h playersResult targetsResult live).2) -> issues op
| by_nextWave h random live op :
    In op (writes (Game.nextWave h random live).2) -> issues op
| by_updatePlayerPosition h deltaTime op :
    In op (writes (Game.updatePlayerPosition h deltaTime)) -> issues op
| by_shoot h targetX targetY op :
    In op (writes (Game.shoot h targetX targetY)) -> issues op
| by_leaveGame h op :
    In op (writes (Game.leaveGame h)) -> issues op.

(** The databases the clients can produce from the empty schema, whoever is
    signed in and whatever ids the server draws.  Profiles are not written
    by the pages: they come from the sign-up trigger, so any profile may
    appear. *)
Inductive reachable : db -> Prop :=
| reach_empty : reachable Db.empty
| reach_profile d profile :
    reachable d -> reachable (set_table Profiles (d Profiles ++ [profile]) d)
| reach_exec d auth gen_random_uuid op :
    reachable d -> issues op -> reachable (exec auth gen_random_uuid d op).


Definition status_ok (r : row) : Prop :=
  exists s, r !! "status" = Some (VStr s) /\ In s lobby_statuses.


Definition count_ok (r : row) : Prop :=
  match r !! "current_players" with
  | Some (VInt n) => 0 <= n
  | _ => True
  end.

Definition is_digit (c : ascii) : Prop := (48 <= nat_of_ascii c <= 57)%nat.
Definition is_upper (c : ascii) : Prop := (65 <= nat_of_ascii c <= 90)%nat.
Definition is_lower (c : ascii) : Prop := (97 <= nat_of_ascii c <= 122)%nat.

(** Two characters that are the same up to the case of a letter. *)
Definition same_letter (a b : ascii) : Prop :=
  a = b \/
  (is_lower a /\ nat_of_ascii b = (nat_of_ascii a - 32)%nat) \/
  (is_lower b /\ nat_of_ascii a = (nat_of_ascii b - 32)%nat).

(** A string of digits and upper-case letters only. *)
Definition code_chars (s : string) : Prop :=
  Forall (fun c => is_digit c \/ is_upper c) (list_ascii_of_string s).


(** [v] spells [c] with some letters in the other case. *)
Fixpoint case_variant (v c : string) : Prop :=
  match v, c with
  | EmptyString, EmptyString => True
  | String a v', String b c' => same_letter a b /\ case_variant v' c'
  | _, _ => False
  end.

End Spec.

(** ** Sample inputs, for the examples *)

Module Sample.
Import Js Db Ui.

Definition me : Game.Player.t :=
  {| Game.Player.id := "gp-1"; Game.Player.player_id := "user-1";
     Game.Player.position_x := 775; Game.Player.position_y := 50;
     Game.Player.health := 100; Game.Player.score := 12;
     Game.Player.is_alive := true;
     Game.Player.username := "ada"; Game.Player.avatar_color := "#FF6B6B" |}.

Definition target (id : string) (x y : Q) (health points : Z) : Game.Target.t :=
  {| Game.Target.id := id; Game.Target.position_x := x; Game.Target.position_y := y;
     Game.Target.color_intensity := 1 # 2; Game.Target.health := health;
     Game.Target.points := points; Game.Target.is_active := true |}.

Definition far : Game.Target.t := target "t-far" 400 300 2 4.

(** A target at (9.1, 24), as these numbers are in binary64, and the
    abscissa 2.1 of a click: the exact distance from (2.1, 0) to the
    target is a little under 25. *)
Definition near : Game.Target.t := target "t-near" (round64 (91 # 10)) 24 1 5.
Definition near_click : Q := round64 (21 # 10).

(** A target of the intensity 0.6, as this number is in binary64. *)
Definition grey : Game.Target.t :=
  {| Game.Target.id := "t-grey"; Game.Target.position_x := 200; Game.Target.position_y := 200;
     Game.Target.color_intensity := round64 (6 # 10); Game.Target.health := 3;
     Game.Target.points := 4; Game.Target.is_active := true |}.

(** A second weak target, away from the first. *)
Definition weak2 : Game.Target.t := target "t-weak2" 300 300 1 5.
Definition weak : Game.Target.t := target "t-weak" 100 100 1 5.

Definition game (ts : list Game.Target.t) (ks : gset string) : Game.Hooks :=
  {| Game.lobbyId := Some "lobby-1"; Game.user := Some "user-1";
     Game.gameState := {| Game.players := [me]; Game.targets := ts;
                          Game.wave := 1; Game.gameStatus := Game.playing |};
     Game.myPlayer := Some me; Game.keys := ks |}.

(** A sequence of values of [0, 1) for [Math.random]. *)
Definition random (i : nat) : Q := Z.of_nat (i mod 8) # 8.

(** The binary64 numbers written [0.19999999999999996] and
    [0.6666666666666667]. *)
Definition dark : Q := round64 (19999999999999996 # 100000000000000000).
Definition two_thirds : Q := round64 (6666666666666667 # 10000000000000000).

Definition lobby : LobbyPage.Lobby.t :=
  {| LobbyPage.Lobby.id := "lobby-1"; LobbyPage.Lobby.code := "IZA012";
     LobbyPage.Lobby.name := "demo"; LobbyPage.Lobby.max_players := 4;
     LobbyPage.Lobby.current_players := 0; LobbyPage.Lobby.status := "waiting";
     LobbyPage.Lobby.host_id := "user-1" |}.

Definition lobby_page (user : option string) (l : option LobbyPage.Lobby.t) : LobbyPage.Hooks :=
  {| LobbyPage.user := user; LobbyPage.lobby := l;
     LobbyPage.players := []; LobbyPage.loading := true |}.

(** A server on which the lobby lookup finds nothing. *)
Definition no_lobby : LobbyPage.Server :=
  {| LobbyPage.select_lobby := fun _ => Returns None (Some "JSON object requested, multiple (or no) rows returned");
     LobbyPage.select_player := fun _ => Returns None None;
     LobbyPage.insert_player := fun _ => Returns None None;
     LobbyPage.update_lobby := fun _ _ => Returns None None;
     LobbyPage.select_players := fun _ => Returns (Some []) None |}.

(** A server that knows the lobby and refuses the new membership. *)
Definition no_join : LobbyPage.Server :=
  {| LobbyPage.select_lobby := fun _ => Returns (Some lobby) None;
     LobbyPage.select_player := fun _ => Returns None (Some "no rows");
     LobbyPage.insert_player := fun _ => Returns None (Some "row-level security");
     LobbyPage.update_lobby := fun _ _ => Returns None None;
     LobbyPage.select_players := fun _ => Returns (Some []) None |}.

(** A server that knows the lobby under its code, "IZA012", and under no
    other spelling; the user is not in it yet and the insert goes through. *)
Definition by_code : LobbyPage.Server :=
  {| LobbyPage.select_lobby := fun fs =>
       if matches fs {[ "code" := VStr "IZA012" ]}
       then Returns (Some lobby) None
       else Returns None (Some "JSON object requested, multiple (or no) rows returned");
     LobbyPage.select_player := fun _ => Returns None (Some "no rows");
     LobbyPage.insert_player := fun _ => Returns None None;
     LobbyPage.update_lobby := fun _ _ => Returns None None;
     LobbyPage.select_players := fun _ => Returns (Some []) None |}.

Definition index_page : Index.Hooks :=
  {| Index.user := Some "user-1"; Index.joinCode := ""; Index.lobbyName := " demo " |}.

(** The profiles of two users who have signed up. *)
Definition profile (id user_id username : string) : row :=
  list_to_map [("id", VStr id); ("user_id", VStr user_id); ("username", VStr username);
               ("avatar_color", VStr "#FF6B6B"); ("total_score", VInt 0);
               ("games_played", VInt 0)].

Definition sign_up (r : row) (d : db) : db :=
  set_table Profiles (d Profiles ++ [r]) d.

Definition signed_up : db :=
  sign_up (profile "profile-2" "user-2" "bob")
    (sign_up (profile "profile-1" "user-1" "ada") Db.empty).

(** The insert of [createLobby] on [index_page], and the database it makes
    once the two users have signed up. *)
Definition create : dbop :=
  Insert Lobbies
    [list_to_map [("code", VStr (Index.new_code [18; 35; 10; 0; 1; 2; 3; 4]%nat));
                  ("name", VStr (trim " demo "));
                  ("host_id", VStr "user-1"); ("current_players", VInt 0)]].

Definition one_lobby : db :=
  exec (Some "user-1") (fun _ => "lobby-1") signed_up create.

(** An insert sent to the interface of the database by hand, with an
    explicit NULL for the status. *)
Definition null_lobby : row :=
  list_to_map [("code", VStr "NULL01"); ("name", VStr "no status");
               ("host_id", VStr "user-2"); ("status", VNull)].

Definition null_status : dbop := Insert Lobbies [null_lobby].

(** The sample lobby in play: the host has joined with the score of [me],
    and the two weak targets are stored. *)
Definition in_play : db :=
  set_table Targets
    [list_to_map [("id", VStr "t-weak"); ("lobby_id", VStr "lobby-1");
                  ("position_x", VReal 100); ("position_y", VReal 100);
                  ("color_intensity", VReal (1 # 2)); ("health", VInt 1);
                  ("points", VInt 5); ("is_active", VBool true)];
     list_to_map [("id", VStr "t-weak2"); ("lobby_id", VStr "lobby-1");
                  ("position_x", VReal 300); ("position_y", VReal 300);
                  ("color_intensity", VReal (1 # 2)); ("health", VInt 1);
                  ("points", VInt 5); ("is_active", VBool true)]]
    (set_table GamePlayers
       [list_to_map [("id", VStr "gp-1"); ("lobby_id", VStr "lobby-1");
                     ("player_id", VStr "user-1");
                     ("position_x", VReal 775); ("position_y", VReal 50);
                     ("health", VInt 100); ("score", VInt 12); ("is_alive", VBool true)]]
       one_lobby).

(** The delete that [leaveLobby] and [leaveGame] send for the host. *)
Definition leave : dbop :=
  Delete GamePlayers [("lobby_id", Some (VStr "lobby-1")); ("player_id", Some (VStr "user-1"))].

(** The host joins the lobby, then destroys the weak target: the databases
    after the insert of [joinLobby] and after the insert of [shoot] into
    [game_events]. *)
Definition joined : db :=
  exec (Some "user-1") (fun _ => "gp-1") one_lobby
    (Insert GamePlayers [LobbyPage.membership "lobby-1" (Some "user-1")]).

Definition shot : db :=
  exec (Some "user-1") (fun _ => "e-1") joined
    (Insert GameEvents
       [Game.shot_event (game [weak] ∅) "lobby-1" weak (Game.Target.health weak - 1)]).

(** The update of [startGame] run by the host of [lobby]. *)
Definition start : dbop :=
  Update Lobbies {[ "status" := VStr "playing" ]} [("id", Some (VStr "lobby-1"))].

End Sample.

(** ** The game page: input, frames and drawing *)

Module Play.
Import Js Db Ui.

Definition setKeys (f : gset string -> gset string) (h : Game.Hooks) : Game.Hooks :=
  {| Game.lobbyId := Game.lobbyId h; Game.user := Game.user h;
     Game.gameState := Game.gameState h; Game.myPlayer := Game.myPlayer h;
     Game.keys := f (Game.keys h) |}.

(** [prev => new Set(prev).add(e.key.toLowerCase())]. *)
Definition handleKeyDown (key : string) (prev : gset string) : gset string :=
  prev ∪ {[ toLowerCase key ]}.

(** [prev => { const newKeys = new Set(prev); newKeys.delete(...); ... }]. *)
Definition handleKeyUp (key : string) (prev : gset string) : gset string :=
  prev ∖ {[ toLowerCase key ]}.

(** What [canvas.getBoundingClientRect()] is read for. *)
Record DOMRect : Type := { left : Q; top : Q }.

(** [handleMouseMove]; [canvas] is [None] while no canvas is mounted. *)
Definition handleMouseMove (canvas : option DOMRect) (clientX clientY : Q)
    (mousePos : Q * Q) : Q * Q :=
  match canvas with
  | Some rect => (sub clientX (left rect), sub clientY (top rect))
  | None => mousePos
  end.

Definition handleClick (h : Game.Hooks) (canvas : option DOMRect) (clientX clientY : Q)
    : list effect :=
  match canvas with
  | Some rect => Game.shoot h (sub clientX (left rect)) (sub clientY (top rect))
  | None => []
  end.

(** The render whose effect (lines 61 to 76) calls [initializeGame],
    [setupEventListeners] and [startGameLoop].  The effect runs again only
    when [user] or [lobbyId] changes, and no handler runs before its first
    run: that render sees the initial state, and the listeners and the
    frame loop it starts keep these values. *)
Definition mount (lobbyId user : option string) : Game.Hooks :=
  Game.initial lobbyId user.

(** The calls on the 2D context; [arc] is always a full circle
    ([0] to [2 * Math.PI]). *)
Inductive canvas_op : Type :=
| fillStyle (s : string)
| strokeStyle (s : string)
| lineWidth (w : Q)
| font (s : string)
| textAlign (s : string)
| fillRect (x y w h : Q)
| beginPath
| arc (x y radius : Q)
| fill
| stroke
| fillText (s : string) (x y : Q)
| moveTo (x y : Q)
| lineTo (x y : Q).

Definition gray (target : Game.Target.t) : Z :=
  Math_floor (mul (Game.Target.color_intensity target) 255).

(** The width of the green part of a target's health bar. *)
Definition target_bar (target : Game.Target.t) : Q :=
  mul 30 (div (inject_Z (Game.Target.health target)) 3).

Definition draw_target (target : Game.Target.t) : list canvas_op :=
  let x := Game.Target.position_x target in
  let y := Game.Target.position_y target in
  [fillStyle ("rgb(" +:+ pretty (gray target) +:+ ", " +:+ pretty (gray target) +:+ ", "
              +:+ pretty (gray target) +:+ ")");
   beginPath; arc x y 20; fill]
  ++ (if 1 <? Game.Target.health target
      then [fillStyle "hsl(0, 80%, 60%)"; fillRect (sub x 15) (sub y 30) 30 4;
            fillStyle "hsl(120, 80%, 50%)";
            fillRect (sub x 15) (sub y 30) (target_bar target) 4]
      else [])
  ++ [fillStyle "hsl(60, 100%, 70%)"; font "12px Arial"; textAlign "center";
      fillText (pretty (Game.Target.points target)) x (add y 5)].

Definition healthPercent (player : Game.Player.t) : Q :=
  div (inject_Z (Game.Player.health player)) 100.

(** The literals [0.3] and [0.6] are the binary64 numbers nearest to them. *)
Definition healthColor (player : Game.Player.t) : string :=
  if lt (healthPercent player) (round64 (3 # 10)) then "hsl(0, 80%, 60%)"
  else if lt (healthPercent player) (round64 (6 # 10)) then "hsl(45, 100%, 60%)"
  else "hsl(120, 80%, 50%)".

Definition draw_player (h : Game.Hooks) (player : Game.Player.t) : list canvas_op :=
  let x := Game.Player.position_x player in
  let y := Game.Player.position_y player in
  [fillStyle (Game.Player.avatar_color player); beginPath; arc x y 15; fill]
  ++ (if same_id (Game.Player.player_id player) (Game.user h)
      then [strokeStyle "hsl(280, 100%, 80%)"; lineWidth 3; stroke]
      else [])
  ++ [fillStyle "hsl(0, 0%, 20%)"; fillRect (sub x 20) (sub y 30) 40 6;
      fillStyle (healthColor player);
      fillRect (sub x 20) (sub y 30) (mul 40 (healthPercent player)) 6;
      fillStyle "hsl(220, 30%, 95%)"; font "14px Arial"; textAlign "center";
      fillText (Game.Player.username player) x (sub y 35)].

Definition draw_crosshair (mousePos : Q * Q) : list canvas_op :=
  [strokeStyle "hsl(60, 100%, 70%)"; lineWidth 2; beginPath;
   moveTo (sub mousePos.1 10) mousePos.2; lineTo (add mousePos.1 10) mousePos.2;
   moveTo mousePos.1 (sub mousePos.2 10); lineTo mousePos.1 (add mousePos.2 10);
   stroke].

(** [render]; [ctx] tells whether the canvas and its 2D context are there.
    The canvas is 800 by 600. *)
Definition render (h : Game.Hooks) (ctx : bool) (mousePos : Q * Q) : list canvas_op :=
  if ctx
  then [fillStyle "hsl(220, 60%, 5%)"; fillRect 0 0 800 600]
       ++ flat_map draw_target (Game.targets (Game.gameState h))
       ++ flat_map (draw_player h) (Game.players (Game.gameState h))
       ++ draw_crosshair mousePos
  else [].



(** The filters of the second select of [fetchGameState]. *)
Definition active_targets (lobby : string) : list filter :=
  [("lobby_id", Some (VStr lobby)); ("is_active", Some (VBool true))].

End Play.

(** ** The landing page: the list of lobbies *)

Module Listing.
Import Js Db Ui.

(** The filter of [fetchLobbies]. *)
Definition waiting : list filter := [("status", Some (VStr "waiting"))].

(** The rows [fetchLobbies] gets: the waiting lobbies, ordered by
    [created_at] (a column the model leaves out, so [order] stands for the
    server's sort) and cut to ten. *)
Definition fetchLobbies_rows (order : list row -> list row) (d : db) : list row :=
  take 10 (order (select d Lobbies waiting)).

End Listing.

(** ** The trigger function [handle_new_user] *)

Module Trigger.
Import Js Db Ui.

(** [split_part(email, '@', 1)]: what precedes the first '@'. *)
Fixpoint split_part_1 (email : string) : string :=
  match email with
  | EmptyString => EmptyString
  | String c r => if Ascii.eqb c "@" then EmptyString else String c (split_part_1 r)
  end.

(** [EXISTS (SELECT 1 FROM public.profiles WHERE username = name)]. *)
Definition taken (profiles : list row) (name : string) : bool :=
  existsb (fun r => match r !! "username" with
                    | Some (VStr u) => String.eqb u name
                    | _ => false
                    end) profiles.

Definition max_integer : Z := 2147483647.

(** What the WHILE loop leaves in [final_username].  [None] when [fuel]
    runs out; [Some None] when [counter + 1] leaves the INTEGER range, which
    aborts the function. *)
Fixpoint unique_username (fuel : nat) (profiles : list row) (username_base : string)
    (final_username : string) (counter : Z) : option (option string) :=
  match fuel with
  | O => None
  | S fuel' =>
      if taken profiles final_username
      then if max_integer <=? counter then Some None
           else unique_username fuel' profiles username_base
                  (username_base +:+ pretty counter) (counter + 1)
      else Some (Some final_username)
  end.

(** The username [handle_new_user] inserts for a new user with this e-mail
    address. *)
Definition final_username (fuel : nat) (profiles : list row) (email : string)
    : option (option string) :=
  unique_username fuel profiles (split_part_1 email) (split_part_1 email) 1.

(** The [n]-th name the loop tries. *)
Definition candidate (username_base : string) (n : nat) : string :=
  match n with
  | O => username_base
  | S _ => username_base +:+ pretty (Z.of_nat n)
  end.

End Trigger.

(** ** Vocabulary of the further properties *)

Module Props.
Import Js Db Ui.

(** The statements the handlers send, one constructor per call of the query
    builder in the three pages. *)
Inductive client_op : dbop -> Prop :=
| co_create code name u :
    client_op (Insert Lobbies
                 [list_to_map [("code", VStr code); ("name", VStr name);
                               ("host_id", VStr u); ("current_players", VInt 0)]])
| co_join lobby_id user :
    client_op (Insert GamePlayers [LobbyPage.membership lobby_id user])
| co_count n fs :
    client_op (Update Lobbies {[ "current_players" := VInt n ]} fs)
| co_start fs :
    client_op (Update Lobbies {[ "status" := VStr "playing" ]} fs)
| co_leave fs :
    client_op (Delete GamePlayers fs)
| co_targets lobby random n :
    client_op (Insert Targets (Game.generate_loop lobby random 0 n))
| co_move p fs :
    client_op (Update GamePlayers (Spec.position_payload p) fs)
| co_score n fs :
    client_op (Update GamePlayers {[ "score" := VInt n ]} fs)
| co_deactivate fs :
    client_op (Update Targets {[ "is_active" := VBool false ]} fs)
| co_health n fs :
    0 < n -> client_op (Update Targets {[ "health" := VInt n ]} fs)
| co_event h lobby hit newHealth :
    client_op (Insert GameEvents [Game.shot_event h lobby hit newHealth]).

(** The column that the row-level-security policies compare with
    [auth.uid()], for the tables that have one. *)
Definition owner_column (t : Table) : option string :=
  match t with
  | Profiles => Some "user_id"
  | Lobbies => Some "host_id"
  | GamePlayers => Some "player_id"
  | Targets | GameEvents => None
  end.

Definition unharmed (r : row) : Prop :=
  r !! "health" = Some (VInt 100) /\ r !! "is_alive" = Some (VBool true).

Definition lobby_as_created (r : row) : Prop :=
  (r !! "status" = Some (VStr "waiting") \/ r !! "status" = Some (VStr "playing")) /\
  r !! "max_players" = Some (VInt 4) /\ r !! "wave_number" = Some (VInt 1).

Definition hit_or_destroyed (r : row) : Prop :=
  r !! "event_type" = Some (VStr "hit") \/ r !! "event_type" = Some (VStr "target_destroyed").

(** The looked-up lobby with another capacity and another status. *)
Definition with_capacity_status (m : Z) (st : string) (l : LobbyPage.Lobby.t)
    : LobbyPage.Lobby.t :=
  {| LobbyPage.Lobby.id := LobbyPage.Lobby.id l;
     LobbyPage.Lobby.code := LobbyPage.Lobby.code l;
     LobbyPage.Lobby.name := LobbyPage.Lobby.name l;
     LobbyPage.Lobby.max_players := m;
     LobbyPage.Lobby.current_players := LobbyPage.Lobby.current_players l;
     LobbyPage.Lobby.status := st;
     LobbyPage.Lobby.host_id := LobbyPage.Lobby.host_id l |}.

(** The server [srv], except that the lobby lookup resolves to [res]. *)
Definition answering (res : response LobbyPage.Lobby.t) (srv : LobbyPage.Server)
    : LobbyPage.Server :=
  {| LobbyPage.select_lobby := fun _ => res;
     LobbyPage.select_player := LobbyPage.select_player srv;
     LobbyPage.insert_player := LobbyPage.insert_player srv;
     LobbyPage.update_lobby := LobbyPage.update_lobby srv;
     LobbyPage.select_players := LobbyPage.select_players srv |}.


(** Successive runs of [fetchGameState] that all find no active target,
    one per players result of the list. *)
Fixpoint refetch (h : Game.Hooks) (results : list (option (list Game.Player.t)))
    (live : Game.Hooks) : Game.Hooks * list effect :=
  match results with
  | [] => (live, [])
  | playersResult :: rest =>
      let one := Game.fetchGameState h playersResult (Some []) live in
      let more := refetch h rest one.1 in
      (more.1, one.2 ++ more.2)
  end.

(** The timers of [nextWave] firing one after the other, each with its own
    results of [Math.random]. *)
Fixpoint fire (h : Game.Hooks) (randoms : list (nat -> Q)) (live : Game.Hooks)
    : Game.Hooks * list effect :=
  match randoms with
  | [] => (live, [])
  | random :: rest =>
      let one := Game.run_callback NextWave h random live in
      let more := fire h rest one.1 in
      (more.1, one.2 ++ more.2)
  end.

(** A row of a new batch: a target of the lobby with its seven columns,
    which the select of [fetchGameState] for that lobby returns once the
    row is stored. *)
Definition fresh_target (lobby : string) (r : row) : Prop :=
  r !! "lobby_id" = Some (VStr lobby) /\ r !! "is_active" = Some (VBool true) /\
  (exists x y ci p hp,
     r !! "position_x" = Some (VReal x) /\ r !! "position_y" = Some (VReal y) /\
     r !! "color_intensity" = Some (VReal ci) /\
     r !! "points" = Some (VInt p) /\ r !! "health" = Some (VInt hp)) /\
  (forall new_id, matches (Play.active_targets lobby) (stored Targets new_id r) = true).

(** The keys [updatePlayerPosition] looks at. *)
Definition movement_keys : list string :=
  ["w"; "arrowup"; "s"; "arrowdown"; "a"; "arrowleft"; "d"; "arrowright"].


End Props.

(** ** Facts about the builtins *)

Section JsFacts.
Import Js.

Lemma find_Some {A} (pred : A -> bool) (l : list A) (a : A) :
  find pred l = Some a <->
  exists pre post, l = pre ++ a :: post /\ pred a = true /\
                   Forall (fun x => pred x = false) pre.
Proof.
  induction l as [|b l IH]; simpl.
  - split; [discriminate|]. intros (pre & post & E & _). by destruct pre.
  - destruct (pred b) eqn:Hb.
    + split.
      * intros [= ->]. exists [], l. by repeat split.
      * intros (pre & post & E & Ha & Hpre). destruct pre as [|c pre]; simpl in E.
        -- congruence.
        -- injection E as -> ->. inversion Hpre; congruence.
    + rewrite IH. split.
      * intros (pre & post & -> & Ha & Hpre). exists (b :: pre), post.
        repeat split; [done|]. by constructor.
      * intros (pre & post & E & Ha & Hpre). destruct pre as [|c pre]; simpl in E.
        -- injection E as -> ->. congruence.
        -- injection E as -> ->. exists pre, post. repeat split; [done|].
           by inversion Hpre.
Qed.


Lemma lt_true (a b : Q) : lt a b = true <-> (a < b)%Q.
Proof.
  unfold lt. rewrite negb_true_iff, <- not_true_iff_false, Qle_bool_iff.
  split; [apply Qnot_le_lt|apply Qlt_not_le].
Qed.

End JsFacts.

(** ** Facts about binary64 rounding *)

Section FloatFacts.
Import Js.
Local Open Scope Q_scope.

Lemma pow2_pos (k : Z) : 0 < pow2 k.
Proof. apply Qpower_0_lt. reflexivity. Qed.

Lemma pow2_plus (a b : Z) : pow2 (a + b) == pow2 a * pow2 b.
Proof. apply Qpower_plus. discriminate. Qed.

Lemma pow2_le (a b : Z) : (a <= b)%Z -> pow2 a <= pow2 b.
Proof. intros H. apply Qpower_le_compat_l; [exact H|discriminate]. Qed.

Lemma pow2_lt (a b : Z) : (a < b)%Z -> pow2 a < pow2 b.
Proof. intros H. apply Qpower_lt_compat_l; [exact H|reflexivity]. Qed.

Lemma pow2_lt_inv (a b : Z) : pow2 a < pow2 b -> (a < b)%Z.
Proof. intros H. eapply Qpower_lt_compat_l_inv; [exact H|reflexivity]. Qed.

Lemma pow2_Z (k : Z) : (0 <= k)%Z -> pow2 k == inject_Z (2 ^ k).
Proof. intros H. unfold pow2. by rewrite Zpower_Qpower. Qed.

Lemma pow2_succ (k : Z) : pow2 (k + 1) == 2 * pow2 k.
Proof. rewrite pow2_plus. change (pow2 1) with 2. ring. Qed.

(** Division by a power of two. *)
Lemma div_pow2_le (x y : Q) (e : Z) : x <= y -> x / pow2 e <= y / pow2 e.
Proof.
  intros H. unfold Qdiv. apply Qmult_le_compat_r; [exact H|].
  apply Qlt_le_weak, Qinv_lt_0_compat, pow2_pos.
Qed.

Lemma div_pow2_bound_le (x : Q) (e k : Z) : pow2 (k + e) <= x -> pow2 k <= x / pow2 e.
Proof.
  intros H. apply Qle_shift_div_l; [apply pow2_pos|]. by rewrite <- pow2_plus.
Qed.

Lemma div_pow2_bound_lt (x : Q) (e k : Z) : x < pow2 (k + e) -> x / pow2 e < pow2 k.
Proof.
  intros H. apply Qlt_shift_div_r; [apply pow2_pos|]. by rewrite <- pow2_plus.
Qed.

Lemma ilog2_spec (q : Q) : 0 < q -> pow2 (ilog2 q) <= q /\ q < pow2 (ilog2 q + 1).
Proof.
  intros Hq. destruct q as [n d]. unfold ilog2. cbn [Qnum Qden].
  assert (0 < n)%Z as Hn by (unfold Qlt in Hq; simpl in Hq; lia).
  set (a := Z.log2 n). set (b := Z.log2 (Z.pos d)).
  pose proof (Z.log2_spec n Hn) as [Ha1 Ha2]. fold a in Ha1, Ha2.
  pose proof (Z.log2_spec (Z.pos d) ltac:(lia)) as [Hb1 Hb2]. fold b in Hb1, Hb2.
  pose proof (Z.log2_nonneg n) as Ha0. fold a in Ha0.
  pose proof (Z.log2_nonneg (Z.pos d)) as Hb0. fold b in Hb0.
  assert (n # d == inject_Z n / inject_Z (Z.pos d)) as Hnd by apply Qmake_Qdiv.
  assert (0 < inject_Z (Z.pos d)) as Hdpos by (unfold Qlt; simpl; lia).
  assert (pow2 (a - b - 1) < n # d) as Hlow.
  { rewrite Hnd. apply Qlt_shift_div_l; [exact Hdpos|].
    apply Qlt_le_trans with (pow2 (a - b - 1) * pow2 (b + 1)).
    - apply Qmult_lt_l; [apply pow2_pos|].
      rewrite pow2_Z by lia. rewrite <- Zlt_Qlt. replace (Z.succ b) with (b + 1)%Z in Hb2 by lia.
      exact Hb2.
    - rewrite <- pow2_plus. replace (a - b - 1 + (b + 1))%Z with a by lia.
      rewrite pow2_Z by lia. rewrite <- Zle_Qle. exact Ha1. }
  assert (n # d < pow2 (a - b + 1)) as Hhigh.
  { rewrite Hnd. apply Qlt_shift_div_r; [exact Hdpos|].
    apply Qlt_le_trans with (pow2 (a - b + 1) * pow2 b).
    - rewrite <- pow2_plus. replace (a - b + 1 + b)%Z with (a + 1)%Z by lia.
      rewrite pow2_Z by lia. rewrite <- Zlt_Qlt. replace (Z.succ a) with (a + 1)%Z in Ha2 by lia.
      exact Ha2.
    - apply Qmult_le_l; [apply pow2_pos|].
      rewrite pow2_Z by lia. rewrite <- Zle_Qle. exact Hb1. }
  destruct (Qle_bool (pow2 (a - b)) (n # d)) eqn:E.
  - apply Qle_bool_iff in E. split; [exact E|exact Hhigh].
  - split; [apply Qlt_le_weak; exact Hlow|].
    replace (a - b - 1 + 1)%Z with (a - b)%Z by lia.
    apply Qnot_le_lt. intros Hle. apply Qle_bool_iff in Hle. congruence.
Qed.

Lemma ilog2_unique (q : Q) (k : Z) : pow2 k <= q -> q < pow2 (k + 1) -> ilog2 q = k.
Proof.
  intros Hlo Hhi.
  assert (0 < q) as Hq by (eapply Qlt_le_trans; [apply pow2_pos|exact Hlo]).
  destruct (ilog2_spec q Hq) as [Hlo' Hhi'].
  assert (ilog2 q < k + 1)%Z by (apply pow2_lt_inv; eapply Qle_lt_trans; eassumption).
  assert (k < ilog2 q + 1)%Z by (apply pow2_lt_inv; eapply Qle_lt_trans; eassumption).
  lia.
Qed.

Lemma ilog2_mono (x y : Q) : 0 < x -> x <= y -> (ilog2 x <= ilog2 y)%Z.
Proof.
  intros Hx Hxy.
  assert (0 < y) as Hy by (eapply Qlt_le_trans; eassumption).
  destruct (ilog2_spec x Hx) as [Hlo _], (ilog2_spec y Hy) as [_ Hhi].
  assert (ilog2 x < ilog2 y + 1)%Z; [|lia].
  apply pow2_lt_inv. eapply Qle_lt_trans; [exact Hlo|]. eapply Qle_lt_trans; eassumption.
Qed.

Lemma last_place_mono prec emin (x y : Q) :
  0 < x -> x <= y -> (last_place prec emin x <= last_place prec emin y)%Z.
Proof. intros Hx Hxy. unfold last_place. pose proof (ilog2_mono x y Hx Hxy). lia. Qed.

(** *** Rounding to an integer *)

Lemma rne_cases (x : Q) : rne x = Qfloor x \/ rne x = (Qfloor x + 1)%Z.
Proof. unfold rne. destruct (_ ?= _); [destruct (Z.even _)| |]; auto. Qed.

Lemma rne_mono (x y : Q) : x <= y -> (rne x <= rne y)%Z.
Proof.
  intros Hxy. pose proof (Qfloor_resp_le x y Hxy) as Hf.
  destruct (Z.eq_dec (Qfloor x) (Qfloor y)) as [Heq|Hne].
  - unfold rne. rewrite <- Heq.
    destruct (x - inject_Z (Qfloor x) ?= 1 # 2) eqn:Ex;
      destruct (y - inject_Z (Qfloor x) ?= 1 # 2) eqn:Ey;
      try rewrite <- Qeq_alt in *; try rewrite <- Qlt_alt in *; try rewrite <- Qgt_alt in *;
      try destruct (Z.even (Qfloor x)); try lia; exfalso; lra.
  - destruct (rne_cases x) as [-> | ->], (rne_cases y) as [-> | ->]; lia.
Qed.

Lemma rne_Z (n : Z) : rne (inject_Z n) = n.
Proof.
  unfold rne. rewrite Qfloor_Z.
  assert ((inject_Z n - inject_Z n ?= 1 # 2) = Lt) as ->; [|done].
  rewrite <- Qlt_alt. lra.
Qed.

Lemma rne_nonneg (x : Q) : 0 <= x -> (0 <= rne x)%Z.
Proof. intros H. rewrite <- (rne_Z 0). by apply rne_mono. Qed.

(** Rounding moves a number by half a unit at most. *)
Lemma rne_near (x : Q) : inject_Z (rne x) - x <= 1 # 2 /\ x - inject_Z (rne x) <= 1 # 2.
Proof.
  pose proof (Qfloor_le x) as Hlo. pose proof (Qlt_floor x) as Hhi.
  rewrite inject_Z_plus in Hhi. change (inject_Z 1) with 1 in Hhi.
  unfold rne.
  destruct (x - inject_Z (Qfloor x) ?= 1 # 2) eqn:E;
    try rewrite <- Qeq_alt in E; try rewrite <- Qlt_alt in E; try rewrite <- Qgt_alt in E;
    try destruct (Z.even (Qfloor x));
    rewrite ?inject_Z_plus; change (inject_Z 1) with 1; split; lra.
Qed.

(** *** Rounding to the format *)

Lemma round_pos_nonneg prec emin (q : Q) : 0 <= q -> 0 <= round_pos prec emin q.
Proof.
  intros Hq. unfold round_pos. apply Qmult_le_0_compat; [|apply Qlt_le_weak, pow2_pos].
  change 0 with (inject_Z 0). rewrite <- Zle_Qle. apply rne_nonneg.
  apply Qle_shift_div_l; [apply pow2_pos|]. lra.
Qed.

Lemma round_pos_mono prec emin (x y : Q) :
  (0 < prec)%Z -> 0 < x -> x <= y -> round_pos prec emin x <= round_pos prec emin y.
Proof.
  intros Hprec Hx Hxy.
  assert (0 < y) as Hy by (eapply Qlt_le_trans; eassumption).
  pose proof (last_place_mono prec emin x y Hx Hxy) as He.
  unfold round_pos.
  set (ex := last_place prec emin x) in *. set (ey := last_place prec emin y) in *.
  destruct (Z.eq_dec ex ey) as [Heq|Hne].
  - rewrite Heq. apply Qmult_le_compat_r; [|apply Qlt_le_weak, pow2_pos].
    rewrite <- Zle_Qle. apply rne_mono. by apply div_pow2_le.
  - assert (ex < ey)%Z as Hlt by lia.
    (* [y] is a normal number of exponent [ey]; [x] lies under [2^(prec + ex)]. *)
    assert (ey = ilog2 y - (prec - 1))%Z as Hey by (subst ex ey; unfold last_place in *; lia).
    assert (ilog2 x - (prec - 1) <= ex)%Z as Hex by (subst ex; unfold last_place; lia).
    destruct (ilog2_spec x Hx) as [_ Hxhi], (ilog2_spec y Hy) as [Hylo _].
    apply Qle_trans with (pow2 prec * pow2 ex).
    + apply Qmult_le_compat_r; [|apply Qlt_le_weak, pow2_pos].
      rewrite (pow2_Z prec) by lia. rewrite <- Zle_Qle.
      rewrite <- (rne_Z (2 ^ prec)). apply rne_mono. rewrite <- (pow2_Z prec) by lia.
      apply Qlt_le_weak, div_pow2_bound_lt.
      eapply Qlt_le_trans; [exact Hxhi|]. apply pow2_le. lia.
    + apply Qle_trans with (pow2 (prec - 1) * pow2 ey).
      * rewrite <- !pow2_plus. apply pow2_le. lia.
      * apply Qmult_le_compat_r; [|apply Qlt_le_weak, pow2_pos].
        rewrite (pow2_Z (prec - 1)) by lia. rewrite <- Zle_Qle.
        rewrite <- (rne_Z (2 ^ (prec - 1))). apply rne_mono. rewrite <- (pow2_Z (prec - 1)) by lia.
        apply div_pow2_bound_le. eapply Qle_trans; [|exact Hylo]. apply pow2_le. lia.
Qed.

Lemma Qred_sign (q : Q) :
  match Qnum (Qred q) with
  | Z0 => q == 0
  | Zpos _ => 0 < q
  | Zneg _ => q < 0
  end.
Proof.
  pose proof (Qred_correct q) as Hr.
  destruct (Qred q) as [n d] eqn:E. cbn [Qnum].
  destruct n; rewrite <- Hr; [reflexivity| |]; unfold Qlt; simpl; lia.
Qed.


Lemma round_0 prec emin : round prec emin 0 = 0.
Proof. reflexivity. Qed.

Lemma round_nonneg prec emin (q : Q) : 0 <= q -> 0 <= round prec emin q.
Proof.
  intros Hq. unfold round. pose proof (Qred_sign q) as Hs.
  destruct (Qnum (Qred q)).
  - lra.
  - apply round_pos_nonneg. rewrite Qred_correct. lra.
  - lra.
Qed.

Lemma round_nonpos prec emin (q : Q) : q <= 0 -> round prec emin q <= 0.
Proof.
  intros Hq. unfold round. pose proof (Qred_sign q) as Hs.
  destruct (Qnum (Qred q)).
  - lra.
  - lra.
  - assert (0 <= round_pos prec emin (- Qred q)); [|lra].
    apply round_pos_nonneg. rewrite Qred_correct. lra.
Qed.

(** Rounding keeps the order. *)
Lemma round_mono prec emin (x y : Q) :
  (0 < prec)%Z -> x <= y -> round prec emin x <= round prec emin y.
Proof.
  intros Hprec Hxy.
  destruct (Qlt_le_dec 0 x) as [Hx|Hx].
  - (* both positive *)
    assert (0 < y) as Hy by lra.
    unfold round. pose proof (Qred_sign x) as Hsx. pose proof (Qred_sign y) as Hsy.
    destruct (Qnum (Qred x)); [lra| |lra]. destruct (Qnum (Qred y)); [lra| |lra].
    apply round_pos_mono; [done|by rewrite Qred_correct|by rewrite !Qred_correct].
  - destruct (Qlt_le_dec y 0) as [Hy|Hy].
    + (* both negative, [x] not zero *)
      unfold round. pose proof (Qred_sign x) as Hsx. pose proof (Qred_sign y) as Hsy.
      destruct (Qnum (Qred y)); [lra|lra|]. destruct (Qnum (Qred x)); [lra|lra|].
      apply Qopp_le_compat.
      apply round_pos_mono; [done|rewrite Qred_correct; lra|rewrite !Qred_correct; lra].
    + apply Qle_trans with 0; [by apply round_nonpos|by apply round_nonneg].
Qed.


Lemma round64_mono (x y : Q) : x <= y -> round64 x <= round64 y.
Proof. apply round_mono. reflexivity. Qed.


Lemma round64_nonneg (q : Q) : 0 <= q -> 0 <= round64 q.
Proof. apply round_nonneg. Qed.

(** A positive binary64 number is a multiple of its last place. *)
Lemma double_grid (q : Q) (k : Z) :
  double q -> pow2 k <= q -> q < pow2 (k + 1) -> (-1074 <= k - 52)%Z ->
  exists n : Z, q == inject_Z n * pow2 (k - 52).
Proof.
  intros Hd Hlo Hhi Hk.
  assert (0 < q) as Hq by (eapply Qlt_le_trans; [apply pow2_pos|exact Hlo]).
  unfold double, round64, round in Hd. pose proof (Qred_sign q) as Hs.
  destruct (Qnum (Qred q)); [lra| |lra].
  unfold round_pos in Hd.
  assert (last_place 53 (-1074) (Qred q) = k - 52)%Z as He.
  { unfold last_place. rewrite (ilog2_unique (Qred q) k) by (by rewrite Qred_correct). lia. }
  rewrite He in Hd. eexists. symmetry. exact Hd.
Qed.

(** The largest binary64 number under 1 is [1 - 2^-53]. *)
Lemma double_lt_1 (q : Q) :
  double q -> q < 1 -> q <= 9007199254740991 # 9007199254740992.
Proof.
  intros Hd H1. destruct (Qlt_le_dec q (1 # 2)) as [Hsmall|Hbig]; [lra|].
  destruct (double_grid q (-1) Hd) as (n & Hn); [exact Hbig|exact H1|lia|].
  change (pow2 (-1 - 52)) with (1 # 9007199254740992) in Hn.
  assert (n < 9007199254740992)%Z as Hlt.
  { rewrite Zlt_Qlt. change (inject_Z 9007199254740992) with 9007199254740992. lra. }
  assert (n <= 9007199254740991)%Z as Hle by lia.
  rewrite Zle_Qle in Hle. change (inject_Z 9007199254740991) with 9007199254740991 in Hle.
  lra.
Qed.

Lemma ceil_le (x : Q) (n : Z) : x <= inject_Z n -> (Math_ceil x <= n)%Z.
Proof. intros H. unfold Math_ceil. rewrite <- (Qceiling_Z n). by apply Qceiling_resp_le. Qed.

Lemma ceil_pos (x : Q) : 0 < x -> (1 <= Math_ceil x)%Z.
Proof.
  intros H. unfold Math_ceil. pose proof (Qle_ceiling x) as Hc.
  assert (0 < inject_Z (Qceiling x)) as Hp by lra.
  change 0 with (inject_Z 0) in Hp. rewrite <- Zlt_Qlt in Hp. lia.
Qed.

Lemma ceil_nonneg (x : Q) : 0 <= x -> (0 <= Math_ceil x)%Z.
Proof. intros H. unfold Math_ceil. change 0%Z with (Qceiling 0). by apply Qceiling_resp_le. Qed.

(** A binary64 bound of a number bounds its rounding. *)
Lemma round64_le (x c : Q) : round64 c == c -> x <= c -> round64 x <= c.
Proof. intros E H. rewrite <- E. by apply round64_mono. Qed.

Lemma round64_ge (x c : Q) : round64 c == c -> c <= x -> c <= round64 x.
Proof. intros E H. rewrite <- E. by apply round64_mono. Qed.

Lemma round64_1 : round64 1 == 1.
Proof. apply Qeq_bool_iff. vm_compute. reflexivity. Qed.

(** The points and the health that [generateTargets] computes. *)
Lemma points_bounds (ci : Q) :
  double ci -> 0 <= ci -> ci < 1 -> (1 <= Math_ceil (mul (sub 1 ci) 10) <= 10)%Z.
Proof.
  intros Hd H0 H1. pose proof (double_lt_1 ci Hd H1) as Hp. split.
  - apply ceil_pos. unfold mul, sub.
    assert (1 # 9007199254740992 <= round64 (1 - ci)) as Hr.
    { apply round64_ge; [apply Qeq_bool_iff; vm_compute; reflexivity|lra]. }
    apply Qlt_le_trans with (10 # 9007199254740992); [reflexivity|].
    apply round64_ge; [apply Qeq_bool_iff; vm_compute; reflexivity|lra].
  - apply ceil_le. unfold mul, sub.
    assert (round64 (1 - ci) <= 1) as Hr by (apply round64_le; [apply round64_1|lra]).
    change (inject_Z 10) with 10.
    apply round64_le; [apply Qeq_bool_iff; vm_compute; reflexivity|lra].
Qed.

Lemma health_bounds (ci : Q) :
  0 <= ci -> ci <= 1 -> (1 <= Math_ceil (mul ci 3) + 1 <= 4)%Z.
Proof.
  intros H0 H1. unfold mul.
  assert (0 <= round64 (ci * 3)) as Hlo by (apply round64_nonneg; lra).
  assert (round64 (ci * 3) <= 3) as Hhi.
  { apply round64_le; [apply Qeq_bool_iff; vm_compute; reflexivity|lra]. }
  pose proof (ceil_nonneg _ Hlo). pose proof (ceil_le (round64 (ci * 3)) 3 Hhi). lia.
Qed.

(** The product of a random number with the width or the height of the
    canvas stays under it. *)
Lemma scaled_random (r side : Q) :
  double r -> 0 <= r -> r < 1 -> 0 < side ->
  round64 ((9007199254740991 # 9007199254740992) * side) < side ->
  0 <= mul r side /\ mul r side < side.
Proof.
  intros Hd H0 H1 Hside Hconst. pose proof (double_lt_1 r Hd H1) as Hp. unfold mul. split.
  - apply round64_nonneg. nra.
  - eapply Qle_lt_trans; [|exact Hconst]. apply round64_mono. nra.
Qed.


End FloatFacts.

(** ** Facts about the database *)

Section DbFacts.
Import Db.

Lemma Table_eqb_eq (a b : Table) : Table_eqb a b = true <-> a = b.
Proof. destruct a, b; simpl; split; congruence. Qed.

Lemma set_table_same t rs d : set_table t rs d t = rs.
Proof. unfold set_table. by destruct t. Qed.

Lemma set_table_other t t' rs d : t <> t' -> set_table t rs d t' = d t'.
Proof.
  intros Hne. unfold set_table. destruct (Table_eqb t t') eqn:E; [|done].
  apply Table_eqb_eq in E. contradiction.
Qed.

(** A statement leaves every other table alone. *)
Lemma exec_other_table auth gen d op t :
  table_of op <> t -> exec auth gen d op t = d t.
Proof.
  destruct op as [t0 rows|t0 payload fs|t0 fs]; simpl; intros Hne.
  - case_match; [by apply set_table_other|done].
  - case_match; [by apply set_table_other|done].
  - by apply set_table_other.
Qed.

(** An update changes a row only if the filters select it, and then into
    the payload laid over the row. *)
Lemma exec_update_rows auth gen d t payload fs :
  Forall2 (fun r r' => r' = r \/ (matches fs r = true /\ r' = updated payload r))
          (d t) (exec auth gen d (Update t payload fs) t).
Proof.
  simpl. destruct (forallb _ (d t)).
  - rewrite set_table_same.
    apply Forall2_fmap_r, Forall2_same_length_lookup_2; [reflexivity|].
    intros i r r' Hr Hr'. assert (r' = r) as -> by congruence. simpl.
    destruct (matches fs r); simpl; [|by left].
    case_match; [right|left]; done.
  - apply Forall2_same_length_lookup_2; [reflexivity|].
    intros i r r' Hr Hr'. left. congruence.
Qed.

Lemma value_eqb_str (x : value) (s : string) : value_eqb x (VStr s) = true -> x = VStr s.
Proof. destruct x; simpl; try discriminate. by intros ->%String.eqb_eq. Qed.

Lemma matches_In (fs : list filter) (r : row) (c : string) (v : option value) :
  matches fs r = true -> In (c, v) fs -> matches_filter r (c, v) = true.
Proof. unfold matches. rewrite forallb_forall. auto. Qed.

Lemma matches_str (fs : list filter) (r : row) (c s : string) :
  matches fs r = true -> In (c, Some (VStr s)) fs -> r !! c = Some (VStr s).
Proof.
  intros Hm Hin. pose proof (matches_In _ _ _ _ Hm Hin) as H.
  unfold matches_filter in H. simpl in H.
  destruct (r !! c) as [x|]; [|done]. by apply value_eqb_str in H as ->.
Qed.


Lemma updated_lookup_other (payload r : row) (c : string) :
  payload !! c = None -> updated payload r !! c = r !! c.
Proof. intros H. unfold updated. by apply lookup_union_r. Qed.

Lemma updated_lookup_set (payload r : row) (c : string) (v : value) :
  payload !! c = Some v -> updated payload r !! c = Some v.
Proof. intros H. unfold updated. by apply lookup_union_Some_l. Qed.

(** Running statements of other tables does not touch [t]. *)
Lemma exec_all_other_tables auth gen ops t d :
  Forall (fun op => table_of op <> t) ops -> exec_all auth gen d ops t = d t.
Proof.
  unfold exec_all. revert d. induction ops as [|op ops IH]; intros d Hall; simpl; [done|].
  inversion Hall; subst. rewrite IH by done. by apply exec_other_table.
Qed.

(** What it takes for a property of the rows of [t] to survive a statement. *)
Lemma exec_update_preserves (P : row -> Prop) auth gen d t payload fs :
  (forall r, P r -> matches fs r = true -> P (updated payload r)) ->
  Forall P (d t) -> Forall P (exec auth gen d (Update t payload fs) t).
Proof.
  intros Hstep Hall.
  eapply Forall2_Forall_r; [apply exec_update_rows|].
  eapply Forall_impl; [exact Hall|].
  intros r Hr r' [->|[Hm ->]]; auto.
Qed.


Lemma exec_delete_preserves (P : row -> Prop) auth gen d t fs :
  Forall P (d t) -> Forall P (exec auth gen d (Delete t fs) t).
Proof.
  intros Hall. simpl. rewrite set_table_same.
  rewrite Forall_forall in *. intros r Hin.
  apply Hall. apply list_elem_of_In. apply list_elem_of_In in Hin.
  apply List.filter_In in Hin. tauto.
Qed.

Lemma exec_all_cons auth gen d op ops :
  exec_all auth gen d (op :: ops) = exec_all auth gen (exec auth gen d op) ops.
Proof. reflexivity. Qed.

Lemma Forall2_unchanged (R : row -> row -> Prop) (l : list row) :
  (forall r, R r r) -> Forall2 R l l.
Proof.
  intros Hrefl. apply Forall2_same_length_lookup_2; [reflexivity|].
  intros i r r' Hr Hr'. assert (r' = r) as -> by congruence. apply Hrefl.
Qed.

Lemma Forall2_map_self {A B} (f : A -> B) (R : A -> B -> Prop) (l : list A) :
  (forall r, R r (f r)) -> Forall2 R l (map f l).
Proof. intros Hrefl. induction l as [|r l IH]; simpl; constructor; auto. Qed.

Lemma exec_all_one auth gen d op : exec_all auth gen d [op] = exec auth gen d op.
Proof. reflexivity. Qed.


(** An insert keeps a property that its accepted rows have. *)
Lemma exec_insert_preserves_checked (P : row -> Prop) auth gen d t rows :
  (forall i r, In r rows -> check_constraint t (stored t (gen i) r) = true ->
               P (stored t (gen i) r)) ->
  Forall P (d t) -> Forall P (exec auth gen d (Insert t rows) t).
Proof.
  intros Hnew Hall. simpl. destruct (forallb _ _) eqn:Hok; [|done].
  rewrite set_table_same. apply Forall_app. split; [done|].
  rewrite forallb_forall in Hok.
  apply Forall_lookup. intros i r' Hr'.
  pose proof (Hok r' ltac:(apply list_elem_of_In; by eapply list_elem_of_lookup_2)) as Hc.
  apply andb_true_iff in Hc as [Hc _].
  rewrite list_lookup_imap in Hr'.
  destruct (rows !! i) as [r|] eqn:Hr; simpl in Hr'; [|done].
  injection Hr' as <-. apply Hnew; [|done].
  apply list_elem_of_In. by eapply list_elem_of_lookup_2.
Qed.

(** A statement keeps a property of the rows of [t] when the rows it stores
    in [t] have it and its updates of [t] keep it. *)
Lemma exec_preserves (P : row -> Prop) auth gen d op t :
  (forall rows i r, op = Insert t rows -> In r rows ->
     check_constraint t (stored t (gen i) r) = true -> P (stored t (gen i) r)) ->
  (forall payload fs r, op = Update t payload fs -> P r -> P (updated payload r)) ->
  Forall P (d t) -> Forall P (exec auth gen d op t).
Proof.
  intros Hins Hupd Hall. destruct (Table_eqb (table_of op) t) eqn:E.
  - apply Table_eqb_eq in E. destruct op as [t0 rows|t0 payload fs|t0 fs]; simpl in E; subst t0.
    + apply exec_insert_preserves_checked; eauto.
    + apply exec_update_preserves; eauto.
    + by apply exec_delete_preserves.
  - rewrite exec_other_table; [done|]. intros Heq. apply Table_eqb_eq in Heq. congruence.
Qed.

(** An update keeps a property that the rows it is allowed to write have. *)
Lemma exec_update_preserves_checked (P : row -> Prop) auth gen d t payload fs :
  (forall r, P r -> check_constraint t (updated payload r) = true -> P (updated payload r)) ->
  Forall P (d t) -> Forall P (exec auth gen d (Update t payload fs) t).
Proof.
  intros Hstep Hall. simpl. destruct (forallb _ (d t)) eqn:Hok; [|done].
  rewrite set_table_same. rewrite forallb_forall in Hok.
  apply Forall_forall. intros r' Hin. apply list_elem_of_In, in_map_iff in Hin as (r & <- & Hr).
  rewrite Forall_forall in Hall. pose proof (Hall r ltac:(by apply list_elem_of_In)) as HP.
  specialize (Hok r Hr).
  destruct (matches fs r && using_update auth t r); [|done].
  simpl in Hok. apply andb_true_iff in Hok as [Hc _]. by apply Hstep.
Qed.

(** A statement, whatever it is, keeps a property of the rows of [t] that
    follows from the CHECK of [t] on the rows it writes. *)
Lemma exec_preserves_checked (P : row -> Prop) auth gen d op t :
  (forall r, check_constraint t r = true -> P r) ->
  Forall P (d t) -> Forall P (exec auth gen d op t).
Proof.
  intros Hcheck Hall. destruct (Table_eqb (table_of op) t) eqn:E.
  - apply Table_eqb_eq in E. destruct op as [t0 rows|t0 payload fs|t0 fs]; simpl in E; subst t0.
    + apply exec_insert_preserves_checked; auto.
    + apply exec_update_preserves_checked; auto.
    + by apply exec_delete_preserves.
  - rewrite exec_other_table; [done|]. intros Heq. apply Table_eqb_eq in Heq. congruence.
Qed.

(** An update reaches only rows that its sender owns. *)
Lemma update_owner_rows auth gen (d : db) (t : Table) (col : string)
    (payload : row) (fs : list filter) :
  Props.owner_column t = Some col ->
  Forall2 (fun r r' => r' = r \/ (owned_by auth col r = true /\ owned_by auth col r' = true))
          (d t) (exec auth gen d (Update t payload fs) t).
Proof.
  intros Hcol.
  assert (forall r, using_update auth t r = owned_by auth col r) as Huse.
  { intros r. destruct t; simpl in *; congruence. }
  simpl. destruct (forallb _ (d t)) eqn:Hall.
  - rewrite set_table_same.
    apply Forall2_fmap_r, Forall2_same_length_lookup_2; [reflexivity|].
    intros i r r' Hr Hr'. assert (r' = r) as -> by congruence. simpl.
    rewrite forallb_forall in Hall.
    specialize (Hall r ltac:(apply list_elem_of_In; by eapply list_elem_of_lookup_2)).
    destruct (matches fs r && using_update auth t r) eqn:Hhit; [|by left].
    right. simpl in Hall. apply andb_true_iff in Hhit as [_ Hu], Hall as [_ Hu'].
    by rewrite <- !Huse.
  - apply Forall2_unchanged. by left.
Qed.

End DbFacts.

(** ** The game page: target generation *)

Section Generation.
Import Js Db Ui.

Lemma generate_loop_length lobby random i todo :
  length (Game.generate_loop lobby random i todo) = todo.
Proof. revert i. induction todo as [|n IH]; intros i; simpl; [done|]. by rewrite IH. Qed.

Lemma generate_loop_In lobby random i todo r :
  In r (Game.generate_loop lobby random i todo) ->
  exists j, (i <= j < i + todo)%nat /\ r = Game.new_target lobby random j.
Proof.
  revert i. induction todo as [|n IH]; intros i; simpl; [done|].
  intros [<-|Hin].
  - exists i. split; [lia|done].
  - destruct (IH _ Hin) as (j & Hj & ->). exists j. split; [lia|done].
Qed.

Lemma initializeGame_wave h players random live :
  Game.wave (Game.gameState (Game.initializeGame h players random live).1)
  = Game.wave (Game.gameState live).
Proof. unfold Game.initializeGame. by repeat case_match. Qed.

Lemma fetchGameState_wave h playersResult targetsResult live :
  Game.wave (Game.gameState (Game.fetchGameState h playersResult targetsResult live).1)
  = Game.wave (Game.gameState live).
Proof. unfold Game.fetchGameState. by repeat case_match. Qed.

(** The wave counter starts at 1 and only ever grows by one. *)
Lemma game_state_wave h : Spec.game_state h -> 1 <= Game.wave (Game.gameState h).
Proof.
  induction 1 as [l u|h ps random live _ IH|h pr tr live _ IH|h random live _ IH|ks live _ IH].
  - done.
  - by rewrite initializeGame_wave.
  - by rewrite fetchGameState_wave.
  - simpl. lia.
  - done.
Qed.

(** C3: with the lobby id at hand and a wave number [w >= 1] in its closure,
    [generateTargets] sends one insert of exactly [min(5 + w, 15)] targets,
    hence at least 6 and at most 15. *)
Theorem generateTargets_count (h : Game.Hooks) (lobby : string) (random : nat -> Q) :
  Game.lobbyId h = Some lobby ->
  1 <= Game.wave (Game.gameState h) ->
  exists newTargets,
    writes (Game.generateTargets h random) = [Insert Targets newTargets] /\
    Z.of_nat (length newTargets) = Z.min (5 + Game.wave (Game.gameState h)) 15 /\
    6 <= Z.of_nat (length newTargets) <= 15.
Proof.
  intros Hl Hw. unfold Game.generateTargets. rewrite Hl.
  eexists. split; [reflexivity|].
  rewrite generate_loop_length. unfold Game.targetsToGenerate, Math_min_Z. lia.
Qed.

Lemma generateTargets_count_witness :
  exists newTargets,
    writes (Game.generateTargets (Game.initial (Some "L7QK2A") (Some "u1")) Sample.random)
    = [Insert Targets newTargets] /\
    Z.of_nat (length newTargets) = Z.min (5 + 1) 15 /\
    6 <= Z.of_nat (length newTargets) <= 15.
Proof.
  apply (generateTargets_count (Game.initial (Some "L7QK2A") (Some "u1")) "L7QK2A").
  - reflexivity.
  - simpl. lia.
Defined.

(** C4: when [Math.random] returns binary64 numbers of [0, 1), every target
    inserted by [generateTargets] has its [color_intensity] in [0, 1) and
    passes the CHECK of the [targets] table; its [points] are
    [Math.ceil((1 - color_intensity) * 10)], an integer from 1 to 10, and
    its [health] is [Math.ceil(color_intensity * 3) + 1], an integer from 1
    to 4, the subtraction and the products being those of binary64. *)
Theorem generated_target_fields (h : Game.Hooks) (random : nat -> Q)
    (newTargets : list row) (target : row) :
  (forall i, double (random i)) ->
  (forall i, (0 <= random i)%Q /\ (random i < 1)%Q) ->
  In (Insert Targets newTargets) (writes (Game.generateTargets h random)) ->
  In target newTargets ->
  exists ci : Q,
    target !! "color_intensity" = Some (VReal ci) /\
    ((0 <= ci)%Q /\ (ci < 1)%Q) /\
    (forall new_id, check_constraint Targets (stored Targets new_id target) = true) /\
    target !! "points" = Some (VInt (Math_ceil (mul (sub 1 ci) 10))) /\
    1 <= Math_ceil (mul (sub 1 ci) 10) <= 10 /\
    target !! "health" = Some (VInt (Math_ceil (mul ci 3) + 1)) /\
    1 <= Math_ceil (mul ci 3) + 1 <= 4.
Proof.
  intros Hdbl Hrnd Hop Hin. unfold Game.generateTargets in Hop.
  destruct (Game.lobbyId h) as [lobby|]; simpl in Hop; [|done].
  destruct Hop as [[= <-]|[]].
  apply generate_loop_In in Hin as (j & _ & ->).
  destruct (Hrnd (3 * j)%nat) as [H0 H1]. pose proof (Hdbl (3 * j)%nat) as Hd.
  exists (random (3 * j)%nat).
  split; [reflexivity|]. split; [by split|]. split; [|split; [reflexivity|split; [|split]]].
  - intros new_id.
    change (Qle_bool 0 (random (3 * j)%nat) && Qle_bool (random (3 * j)%nat) 1 = true).
    apply andb_true_intro. rewrite !Qle_bool_iff. split; lra.
  - by apply points_bounds.
  - reflexivity.
  - apply health_bounds; lra.
Qed.

Lemma sample_random_unit (i : nat) :
  (0 <= Sample.random i)%Q /\ (Sample.random i < 1)%Q.
Proof.
  unfold Sample.random, Qle, Qlt. simpl. pose proof (Nat.mod_upper_bound i 8). lia.
Qed.

Lemma sample_random_double (i : nat) : double (Sample.random i).
Proof.
  unfold Sample.random. pose proof (Nat.mod_upper_bound i 8 ltac:(lia)) as Hlt.
  destruct (i mod 8)%nat as [|[|[|[|[|[|[|[|k]]]]]]]]; try lia;
    apply Qeq_bool_iff; vm_compute; reflexivity.
Qed.

Lemma generated_target_fields_witness :
  exists ci : Q,
    Game.new_target "L7QK2A" Sample.random 2 !! "color_intensity" = Some (VReal ci) /\
    ((0 <= ci)%Q /\ (ci < 1)%Q) /\
    (forall new_id, check_constraint Targets
       (stored Targets new_id (Game.new_target "L7QK2A" Sample.random 2)) = true) /\
    Game.new_target "L7QK2A" Sample.random 2 !! "points"
    = Some (VInt (Math_ceil (mul (sub 1 ci) 10))) /\
    1 <= Math_ceil (mul (sub 1 ci) 10) <= 10 /\
    Game.new_target "L7QK2A" Sample.random 2 !! "health"
    = Some (VInt (Math_ceil (mul ci 3) + 1)) /\
    1 <= Math_ceil (mul ci 3) + 1 <= 4.
Proof.
  apply (generated_target_fields
           {| Game.lobbyId := Some "L7QK2A"; Game.user := Some "u1";
              Game.gameState := {| Game.players := []; Game.targets := [];
                                   Game.wave := 1; Game.gameStatus := Game.playing |};
              Game.myPlayer := None; Game.keys := ∅ |}
           Sample.random
           (Game.generate_loop "L7QK2A" Sample.random 0 6)).
  - apply sample_random_double.
  - apply sample_random_unit.
  - simpl. left. reflexivity.
  - simpl. right. right. left. reflexivity.
Defined.

(** The first wave of the sample lobby: six targets, the third one drawn
    from the random values number 6, 7 and 8. *)
Example generateTargets_sample :
  length (Game.generate_loop "L7QK2A" Sample.random 0
            (Z.to_nat (Game.targetsToGenerate (Game.initial (Some "L7QK2A") (Some "u1"))))) = 6%nat /\
  Game.new_target "L7QK2A" Sample.random 2 !! "color_intensity" = Some (VReal (6 # 8)) /\
  Game.new_target "L7QK2A" Sample.random 2 !! "points" = Some (VInt 3) /\
  Game.new_target "L7QK2A" Sample.random 2 !! "health" = Some (VInt 4).
Proof. repeat split; vm_compute; reflexivity. Qed.

(** Rounding shows in the points and in the health: for the intensity
    0.19999999999999996 the product [(1 - ci) * 10] is rounded to 8, so the
    points are 8 though the exact product is above 8; for
    0.6666666666666667 the product [ci * 3] is rounded to 2, so the health
    is 3. *)
Example generated_target_rounding :
  Game.new_target "L7QK2A" (fun _ => Sample.dark) 0 !! "points" = Some (VInt 8) /\
  Qceiling ((1 - Sample.dark) * 10) = 9 /\
  Game.new_target "L7QK2A" (fun _ => Sample.two_thirds) 0 !! "health" = Some (VInt 3) /\
  Qceiling (Sample.two_thirds * 3) + 1 = 4.
Proof. repeat split; vm_compute; reflexivity. Qed.

End Generation.

(** ** The game page: moving the player *)

Section Movement.
Import Js Db Ui.

Lemma clamp_bounds (lo hi v : Q) :
  (lo <= hi)%Q -> (lo <= Math_max lo (Math_min hi v))%Q /\ (Math_max lo (Math_min hi v) <= hi)%Q.
Proof.
  intros Hle. unfold Math_max, Math_min. split.
  - apply Q.le_max_l.
  - apply Q.max_lub; [exact Hle|apply Q.le_min_l].
Qed.

Lemma new_position_bounds h me deltaTime :
  ((20 <= (Game.new_position h me deltaTime).1)%Q /\
   ((Game.new_position h me deltaTime).1 <= 780)%Q) /\
  ((20 <= (Game.new_position h me deltaTime).2)%Q /\
   ((Game.new_position h me deltaTime).2 <= 580)%Q).
Proof. unfold Game.new_position. simpl. split; apply clamp_bounds; lra. Qed.

(** The two outcomes of [updatePlayerPosition]. *)
Lemma updatePlayerPosition_cases h deltaTime :
  Game.updatePlayerPosition h deltaTime = [] \/
  exists me lobby,
    Game.myPlayer h = Some me /\ Game.lobbyId h = Some lobby /\ Spec.moved h me deltaTime /\
    Game.updatePlayerPosition h deltaTime
    = [Write (Update GamePlayers (Spec.position_payload (Game.new_position h me deltaTime))
                (Game.own_row h lobby))].
Proof.
  unfold Game.updatePlayerPosition.
  destruct (Game.myPlayer h) as [me|]; [|by left].
  destruct (Game.lobbyId h) as [lobby|]; [|by left].
  destruct (Game.new_position h me deltaTime) as [newX newY] eqn:Hpos.
  destruct (neq newX _ || neq newY _) eqn:Hne; [|by left].
  right. exists me, lobby. split; [done|]. split; [done|]. split; [|by rewrite Hpos].
  unfold Spec.moved. rewrite Hpos. simpl. intros [Hx Hy].
  apply orb_true_iff in Hne. unfold neq in Hne. rewrite !negb_true_iff in Hne.
  apply Qeq_bool_iff in Hx, Hy. destruct Hne; congruence.
Qed.

Lemma updatePlayerPosition_moved h me lobby deltaTime :
  Game.myPlayer h = Some me -> Game.lobbyId h = Some lobby -> Spec.moved h me deltaTime ->
  Game.updatePlayerPosition h deltaTime
  = [Write (Update GamePlayers (Spec.position_payload (Game.new_position h me deltaTime))
              (Game.own_row h lobby))].
Proof.
  intros Hme Hl Hmv. unfold Game.updatePlayerPosition. rewrite Hme, Hl.
  destruct (Game.new_position h me deltaTime) as [newX newY] eqn:Hpos.
  destruct (neq newX _ || neq newY _) eqn:Hne; [done|].
  exfalso. apply Hmv. rewrite Hpos. simpl.
  apply orb_false_iff in Hne as [Hx Hy]. unfold neq in Hx, Hy.
  rewrite negb_false_iff in Hx, Hy. by rewrite <- !Qeq_bool_iff.
Qed.

Lemma position_payload_other (p : Q * Q) (c : string) :
  c <> "position_x" -> c <> "position_y" -> Spec.position_payload p !! c = None.
Proof.
  intros Hx Hy. unfold Spec.position_payload. simpl.
  rewrite !lookup_insert_ne by done. apply lookup_empty.
Qed.


(** C9: whatever the keys held, the time step and the position the player
    had, a position written by [updatePlayerPosition] has its [position_x]
    in [20, 780] and its [position_y] in [20, 580]. *)
Theorem written_position_clamped (h : Game.Hooks) (deltaTime : Q) (op : dbop) :
  In op (writes (Game.updatePlayerPosition h deltaTime)) ->
  exists x y fs,
    op = Update GamePlayers (list_to_map [("position_x", VReal x); ("position_y", VReal y)]) fs /\
    ((20 <= x)%Q /\ (x <= 780)%Q) /\ ((20 <= y)%Q /\ (y <= 580)%Q).
Proof.
  destruct (updatePlayerPosition_cases h deltaTime) as [->|(me & lobby & _ & _ & _ & ->)];
    simpl; [done|].
  intros [<-|[]]. eexists _, _, _. split; [reflexivity|].
  apply new_position_bounds.
Qed.


Lemma written_position_clamped_witness :
  exists x y fs,
    Update GamePlayers (list_to_map [("position_x", VReal 780); ("position_y", VReal 50)])
      [("lobby_id", Some (VStr "lobby-1")); ("player_id", Some (VStr "user-1"))]
    = Update GamePlayers (list_to_map [("position_x", VReal x); ("position_y", VReal y)]) fs /\
    ((20 <= x)%Q /\ (x <= 780)%Q) /\ ((20 <= y)%Q /\ (y <= 580)%Q).
Proof.
  apply (written_position_clamped (Sample.game [] {["d"]}) (1 # 10)).
  vm_compute. left. reflexivity.
Defined.


End Movement.

(** ** The lobby page *)

Section LobbyFacts.
Import Js Db Ui.

(** C5: when the lookup of the lobby by its code resolves to an error or to
    no row, [joinLobby] shows the destructive toast "Lobby not found" and
    navigates to "/", sends no statement at all and leaves the page's state
    (its [lobby] included) as it was; when the lobby is found, the user is
    not yet in it and the insert into [game_players] resolves to an error,
    the handler shows a destructive toast with the error's message and
    navigates to "/", and the player count of the lobby is not written. *)
Theorem joinLobby_failures (h : LobbyPage.Hooks) (lobbyCode : string)
    (srv : LobbyPage.Server) (live : LobbyPage.Hooks) :
  (forall data error,
     LobbyPage.select_lobby srv [("code", Some (VStr (toUpperCase lobbyCode)))]
     = Returns data error ->
     data = None \/ error <> None ->
     LobbyPage.joinLobby h lobbyCode srv live
     = (live, [Toast "Lobby not found" "Please check the lobby code and try again." Destructive;
               Navigate "/"])) /\
  (forall lobbyData e ignored message,
     LobbyPage.select_lobby srv [("code", Some (VStr (toUpperCase lobbyCode)))]
     = Returns (Some lobbyData) None ->
     LobbyPage.select_player srv [("lobby_id", Some (VStr (LobbyPage.Lobby.id lobbyData)));
                                  ("player_id", str (LobbyPage.user h))]
     = Returns None e ->
     LobbyPage.insert_player srv (LobbyPage.membership (LobbyPage.Lobby.id lobbyData) (LobbyPage.user h))
     = Returns ignored (Some message) ->
     (LobbyPage.joinLobby h lobbyCode srv live).2
     = [Write (Insert GamePlayers
                 [LobbyPage.membership (LobbyPage.Lobby.id lobbyData) (LobbyPage.user h)]);
        Toast "Failed to join lobby" message Destructive;
        Navigate "/"] /\
     writes_to Lobbies (LobbyPage.joinLobby h lobbyCode srv live).2 = []).
Proof.
  split.
  - intros data error Hsel Hbad. unfold LobbyPage.joinLobby. rewrite Hsel.
    destruct data as [lobbyData|], error as [e|]; try done.
    destruct Hbad; congruence.
  - intros lobbyData e ignored message Hsel Hex Hins.
    unfold LobbyPage.joinLobby. rewrite Hsel, Hex, Hins. by split.
Qed.

Lemma joinLobby_failures_witness :
  LobbyPage.joinLobby (Sample.lobby_page (Some "user-2") None) "iza012" Sample.no_lobby
    (Sample.lobby_page (Some "user-2") None)
  = (Sample.lobby_page (Some "user-2") None,
     [Toast "Lobby not found" "Please check the lobby code and try again." Destructive;
      Navigate "/"]) /\
  (LobbyPage.joinLobby (Sample.lobby_page (Some "user-2") None) "iza012" Sample.no_join
     (Sample.lobby_page (Some "user-2") None)).2
  = [Write (Insert GamePlayers [LobbyPage.membership "lobby-1" (Some "user-2")]);
     Toast "Failed to join lobby" "row-level security" Destructive;
     Navigate "/"].
Proof.
  split.
  - apply (proj1 (joinLobby_failures (Sample.lobby_page (Some "user-2") None) "iza012"
                    Sample.no_lobby (Sample.lobby_page (Some "user-2") None))
             None (Some "JSON object requested, multiple (or no) rows returned")).
    + reflexivity.
    + left. reflexivity.
  - apply (proj2 (joinLobby_failures (Sample.lobby_page (Some "user-2") None) "iza012"
                    Sample.no_join (Sample.lobby_page (Some "user-2") None))
             Sample.lobby (Some "no rows") None "row-level security").
    + reflexivity.
    + reflexivity.
    + reflexivity.
Defined.

Lemma count_payload_ok (n : Z) (r : row) :
  0 <= n -> Spec.count_ok (updated {[ "current_players" := VInt n ]} r).
Proof.
  intros Hn. unfold Spec.count_ok.
  by rewrite (updated_lookup_set _ _ _ (VInt n)) by apply lookup_singleton_eq.
Qed.

(** C10: with a lobby of player count [n] on the page and a user signed in,
    the one statement [leaveLobby] sends to [lobbies] sets [current_players]
    to [max(0, n - 1)] on that lobby; the value is never negative (it is 0
    when [n] is 0), and on any database whose stored counts are not
    negative the statements of [leaveLobby] leave them so. *)
Theorem leaveLobby_count (h : LobbyPage.Hooks) (l : LobbyPage.Lobby.t) (u : string) :
  LobbyPage.lobby h = Some l ->
  LobbyPage.user h = Some u ->
  writes_to Lobbies (LobbyPage.leaveLobby h)
  = [Update Lobbies
       {[ "current_players" := VInt (Z.max 0 (LobbyPage.Lobby.current_players l - 1)) ]}
       [("id", Some (VStr (LobbyPage.Lobby.id l)))]] /\
  0 <= Z.max 0 (LobbyPage.Lobby.current_players l - 1) /\
  (LobbyPage.Lobby.current_players l = 0 ->
   Z.max 0 (LobbyPage.Lobby.current_players l - 1) = 0) /\
  (forall auth gen_random_uuid d,
     Forall Spec.count_ok (d Lobbies) ->
     Forall Spec.count_ok
       (exec_all auth gen_random_uuid d (writes (LobbyPage.leaveLobby h)) Lobbies)).
Proof.
  intros Hl Hu. unfold LobbyPage.leaveLobby. rewrite Hl, Hu.
  split; [reflexivity|]. split; [lia|]. split; [lia|].
  intros auth gen d Hd.
  change (Forall Spec.count_ok
            (exec auth gen
               (exec auth gen d
                  (Delete GamePlayers [("lobby_id", Some (VStr (LobbyPage.Lobby.id l)));
                                       ("player_id", Some (VStr u))]))
               (Update Lobbies
                  {[ "current_players" :=
                       VInt (Math_max_Z 0 (LobbyPage.Lobby.current_players l - 1)) ]}
                  [("id", Some (VStr (LobbyPage.Lobby.id l)))]) Lobbies)).
  apply exec_update_preserves.
  - intros r _ _. apply count_payload_ok. unfold Math_max_Z. lia.
  - by rewrite exec_other_table.
Qed.

Lemma leaveLobby_count_witness :
  writes_to Lobbies (LobbyPage.leaveLobby (Sample.lobby_page (Some "user-1") (Some Sample.lobby)))
  = [Update Lobbies {[ "current_players" := VInt (Z.max 0 (0 - 1)) ]}
       [("id", Some (VStr "lobby-1"))]] /\
  0 <= Z.max 0 (0 - 1) /\
  (0 = 0 -> Z.max 0 (0 - 1) = 0) /\
  (forall auth gen_random_uuid d,
     Forall Spec.count_ok (d Lobbies) ->
     Forall Spec.count_ok
       (exec_all auth gen_random_uuid d
          (writes (LobbyPage.leaveLobby (Sample.lobby_page (Some "user-1") (Some Sample.lobby))))
          Lobbies)).
Proof.
  apply (leaveLobby_count (Sample.lobby_page (Some "user-1") (Some Sample.lobby))
           Sample.lobby "user-1").
  - reflexivity.
  - reflexivity.
Defined.

End LobbyFacts.

(** ** The status of a lobby *)

Section LobbyStatus.
Import Js Db Ui.



Lemma startGame_host h error op :
  In op (writes (LobbyPage.startGame h error)) ->
  exists l,
    op = Update Lobbies {[ "status" := VStr "playing" ]}
           [("id", Some (VStr (LobbyPage.Lobby.id l)))] /\
    LobbyPage.lobby h = Some l /\
    LobbyPage.user h = Some (LobbyPage.Lobby.host_id l).
Proof.
  unfold LobbyPage.startGame. destruct (LobbyPage.lobby h) as [l|]; [|done].
  destruct (same_id _ _) eqn:Hhost; simpl; [|done].
  intros Hin. exists l.
  assert (LobbyPage.user h = Some (LobbyPage.Lobby.host_id l)) as Hu.
  { unfold same_id in Hhost. destruct (LobbyPage.user h) as [u|]; [|done].
    by apply String.eqb_eq in Hhost as ->. }
  destruct error; simpl in Hin; destruct Hin as [<-|[]]; done.
Qed.











Lemma sample_one_lobby_reachable : Spec.reachable Sample.one_lobby.
Proof.
  apply Spec.reach_exec.
  - do 2 apply Spec.reach_profile. apply Spec.reach_empty.
  - apply (Spec.by_createLobby Sample.index_page [18; 35; 10; 0; 1; 2; 3; 4]%nat
             (Some ∅, None)).
    simpl. left. reflexivity.
Qed.


(** What the claim says of every lobby row fails on the schema alone: a
    signed-in user who sends an insert with an explicit NULL status, by
    hand, gets it stored, and the lobby then has none of the three values. *)
Lemma lobby_status_counterexample :
  exec (Some "user-2") (fun _ => "lobby-2") Sample.one_lobby Sample.null_status Lobbies
  = Sample.one_lobby Lobbies ++ [stored Lobbies "lobby-2" Sample.null_lobby] /\
  stored Lobbies "lobby-2" Sample.null_lobby !! "status" = Some VNull /\
  ~ Forall Spec.status_ok
      (exec (Some "user-2") (fun _ => "lobby-2") Sample.one_lobby Sample.null_status Lobbies).
Proof.
  assert (exec (Some "user-2") (fun _ => "lobby-2") Sample.one_lobby Sample.null_status Lobbies
          = Sample.one_lobby Lobbies ++ [stored Lobbies "lobby-2" Sample.null_lobby]) as E
    by (vm_compute; reflexivity).
  split; [exact E|]. split; [reflexivity|].
  rewrite E. intros Hall. apply Forall_app in Hall as [_ Hall].
  inversion Hall as [|r l (s & Hs & _) _]. discriminate Hs.
Qed.

End LobbyStatus.

(** ** The game page: shooting and waves *)

Section Shooting.
Import Js Db Ui.

Lemma Q2R_25 : Q2R 25 = 25%R.
Proof. unfold Q2R. simpl. lra. Qed.

(** The exact distance is under 25 when the exact sum of the squares is
    under 625. *)
Lemma distance_lt_25 (x y : Q) (t : Game.Target.t) :
  ((Game.Target.position_x t - x) * (Game.Target.position_x t - x) +
   (Game.Target.position_y t - y) * (Game.Target.position_y t - y) < 625)%Q ->
  (Spec.distance x y t < 25)%R.
Proof.
  intros Hlt. unfold Spec.distance.
  rewrite <- (sqrt_square 25) by lra. apply sqrt_lt_1_alt.
  apply Qlt_Rlt in Hlt. rewrite Q2R_plus, !Q2R_mult, !Q2R_minus in Hlt.
  replace (Q2R 625) with (25 * 25)%R in Hlt by (unfold Q2R; simpl; lra).
  split; [|exact Hlt].
  pose proof (Rle_0_sqr (Q2R (Game.Target.position_x t) - Q2R x)) as Hx.
  pose proof (Rle_0_sqr (Q2R (Game.Target.position_y t) - Q2R y)) as Hy.
  unfold Rsqr in Hx, Hy. lra.
Qed.

(** The test of [shoot] on the distance it computes. *)
Lemma in_hit_radius_spec (x y : Q) (t : Game.Target.t) :
  Game.in_hit_radius x y t = true <-> Spec.within_25 x y t.
Proof. unfold Game.in_hit_radius, Spec.within_25. apply lt_true. Qed.

Lemma in_hit_radius_not (x y : Q) (t : Game.Target.t) :
  Game.in_hit_radius x y t = false <-> ~ Spec.within_25 x y t.
Proof. rewrite <- in_hit_radius_spec. by destruct (Game.in_hit_radius x y t). Qed.

Lemma find_first_within (x y : Q) (ts : list Game.Target.t) (t : Game.Target.t) :
  find (Game.in_hit_radius x y) ts = Some t <-> Spec.first_within x y ts t.
Proof.
  rewrite find_Some. unfold Spec.first_within.
  split; intros (pre & post & E & Ht & Hpre); exists pre, post; (split; [done|]); split.
  - exact (proj1 (in_hit_radius_spec x y t) Ht).
  - eapply Forall_impl; [exact Hpre|]. intros u. exact (proj1 (in_hit_radius_not x y u)).
  - exact (proj2 (in_hit_radius_spec x y t) Ht).
  - eapply Forall_impl; [exact Hpre|]. intros u. exact (proj2 (in_hit_radius_not x y u)).
Qed.





(** The claim as it is worded fails in three ways.  The distance is the
    one computed in binary64: the target [near] is at an exact distance
    under 25 from the click, and [shoot] misses it.  A render that has the
    targets but not yet the player shoots at nothing.  And the score
    written is the score of the handler's render plus the points, not the
    stored score plus the points: two lethal shots of one render, at two
    targets of 5 points, leave the stored score of 12 at 17. *)
Lemma shoot_counterexample :
  ((Spec.distance Sample.near_click 0 Sample.near < 25)%R /\
   Game.shoot (Sample.game [Sample.near] ∅) Sample.near_click 0 = []) /\
  ((Spec.distance 100 100 Sample.weak < 25)%R /\
   Game.myPlayer (Game.fetchGameState (Game.initial (Some "lobby-1") (Some "user-1"))
                    None (Some [Sample.weak])
                    (Game.initial (Some "lobby-1") (Some "user-1"))).1 = None /\
   Game.shoot (Game.fetchGameState (Game.initial (Some "lobby-1") (Some "user-1"))
                 None (Some [Sample.weak])
                 (Game.initial (Some "lobby-1") (Some "user-1"))).1 100 100 = []) /\
  (map (fun r : row => r !! "is_active")
     (exec_all (Some "user-1") (fun _ => "e-1") Sample.in_play
        (writes (Game.shoot (Sample.game [Sample.weak; Sample.weak2] ∅) 100 100) ++
         writes (Game.shoot (Sample.game [Sample.weak; Sample.weak2] ∅) 300 300)) Targets)
   = [Some (VBool false); Some (VBool false)] /\
   map (fun r : row => r !! "score")
     (exec_all (Some "user-1") (fun _ => "e-1") Sample.in_play
        (writes (Game.shoot (Sample.game [Sample.weak; Sample.weak2] ∅) 100 100) ++
         writes (Game.shoot (Sample.game [Sample.weak; Sample.weak2] ∅) 300 300)) GamePlayers)
   = [Some (VInt 17)]).
Proof.
  split; [|split].
  - split; [|vm_compute; reflexivity].
    apply distance_lt_25. unfold Qlt. vm_compute. reflexivity.
  - split; [|split; vm_compute; reflexivity].
    apply distance_lt_25. unfold Qlt. vm_compute. reflexivity.
  - split; vm_compute; reflexivity.
Qed.

(** The clicks of the two instances that binary64 settles against the
    exact distance: misses, both. *)
Example in_hit_radius_rounding :
  Game.in_hit_radius Sample.near_click 0 Sample.near = false /\
  (Game.distance Sample.near_click 0 Sample.near == 25)%Q /\
  Game.in_hit_radius 0 0
    (Sample.target "t" (round64 (88 # 10)) (round64 (234 # 10)) 1 5) = false.
Proof.
  split; [vm_compute; reflexivity|]. split; [|vm_compute; reflexivity].
  apply Qeq_bool_iff. vm_compute. reflexivity.
Qed.

Lemma new_target_fresh (lobby : string) (random : nat -> Q) (i : nat) :
  Props.fresh_target lobby (Game.new_target lobby random i).
Proof.
  split; [reflexivity|]. split; [reflexivity|]. split.
  - eexists _, _, _, _, _. repeat split; reflexivity.
  - intros new_id. unfold matches, Play.active_targets, matches_filter. simpl.
    change (stored Targets new_id (Game.new_target lobby random i) !! "lobby_id")
      with (Some (VStr lobby)).
    change (stored Targets new_id (Game.new_target lobby random i) !! "is_active")
      with (Some (VBool true)).
    simpl. by rewrite String.eqb_refl.
Qed.

(** C2: a fetch of the game state that finds no active target of the lobby
    sets the status to 'wave_complete' and arms one timer of 2000 ms for
    [nextWave]; whenever that timer fires, [nextWave] adds exactly 1 to the
    wave number, sets the status back to 'playing' and inserts a new batch
    of targets: rows of this lobby, active, each with a position, an
    intensity, points and health, that the next fetch selects once they are
    stored.  The batch has the size [generateTargets] computes from the wave
    number of its closure (at least 6 for a closure the page can have). *)
Theorem wave_progression (h : Game.Hooks) (lobby : string)
    (playersResult : option (list Game.Player.t)) (live : Game.Hooks) :
  Game.lobbyId h = Some lobby ->
  Game.gameStatus (Game.gameState (Game.fetchGameState h playersResult (Some []) live).1)
  = Game.wave_complete /\
  Game.wave (Game.gameState (Game.fetchGameState h playersResult (Some []) live).1)
  = Game.wave (Game.gameState live) /\
  (Game.fetchGameState h playersResult (Some []) live).2 = [SetTimeout NextWave 2000] /\
  (forall random later,
     Game.wave (Game.gameState (Game.run_callback NextWave h random later).1)
     = Game.wave (Game.gameState later) + 1 /\
     Game.gameStatus (Game.gameState (Game.run_callback NextWave h random later).1)
     = Game.playing /\
     exists newTargets,
       writes (Game.run_callback NextWave h random later).2 = [Insert Targets newTargets] /\
       Forall (Props.fresh_target lobby) newTargets /\
       length newTargets = Z.to_nat (Z.min (5 + Game.wave (Game.gameState h)) 15) /\
       (Spec.game_state h -> (6 <= length newTargets)%nat)).
Proof.
  intros Hl. split; [|split; [|split]].
  - unfold Game.fetchGameState. rewrite Hl. by repeat case_match.
  - apply fetchGameState_wave.
  - unfold Game.fetchGameState. by rewrite Hl.
  - intros random later. split; [done|]. split; [done|].
    simpl. unfold Game.generateTargets. rewrite Hl. simpl.
    eexists. split; [reflexivity|]. split.
    { apply Forall_forall. intros r Hin. apply list_elem_of_In, generate_loop_In in Hin.
      destruct Hin as (j & _ & ->). apply new_target_fresh. }
    rewrite generate_loop_length. split; [done|].
    intros Hh%game_state_wave. unfold Game.targetsToGenerate, Math_min_Z. lia.
Qed.

Lemma wave_progression_witness :
  Game.gameStatus (Game.gameState
    (Game.fetchGameState (Sample.game [] ∅) (Some [Sample.me]) (Some [])
       (Sample.game [Sample.weak] ∅)).1)
  = Game.wave_complete /\
  Game.wave (Game.gameState
    (Game.fetchGameState (Sample.game [] ∅) (Some [Sample.me]) (Some [])
       (Sample.game [Sample.weak] ∅)).1)
  = 1 /\
  (Game.fetchGameState (Sample.game [] ∅) (Some [Sample.me]) (Some [])
     (Sample.game [Sample.weak] ∅)).2 = [SetTimeout NextWave 2000] /\
  (forall random later,
     Game.wave (Game.gameState (Game.run_callback NextWave (Sample.game [] ∅) random later).1)
     = Game.wave (Game.gameState later) + 1 /\
     Game.gameStatus (Game.gameState (Game.run_callback NextWave (Sample.game [] ∅) random later).1)
     = Game.playing /\
     exists newTargets,
       writes (Game.run_callback NextWave (Sample.game [] ∅) random later).2
       = [Insert Targets newTargets] /\
       Forall (Props.fresh_target "lobby-1") newTargets /\
       length newTargets = Z.to_nat (Z.min (5 + 1) 15) /\
       (Spec.game_state (Sample.game [] ∅) -> (6 <= length newTargets)%nat)).
Proof.
  apply (wave_progression (Sample.game [] ∅) "lobby-1" (Some [Sample.me])
           (Sample.game [Sample.weak] ∅)).
  reflexivity.
Defined.

End Shooting.

(** ** Lobby codes *)

Section Codes.
Import Js Db Ui.

Lemma toUpperCase_digit36 (d : nat) :
  Spec.is_digit (toUpperCase_char (digit36 d)) \/ Spec.is_upper (toUpperCase_char (digit36 d)).
Proof.
  unfold digit36. pose proof (Nat.mod_upper_bound d 36) as Hlt.
  generalize dependent (d mod 36)%nat. intros k Hk. specialize (Hk ltac:(lia)).
  unfold Spec.is_digit, Spec.is_upper.
  do 36 (destruct k as [|k]; [vm_compute; lia|]). lia.
Qed.

Lemma toUpperCase_fixed (c : ascii) :
  Spec.is_digit c \/ Spec.is_upper c -> toUpperCase_char c = c.
Proof.
  unfold Spec.is_digit, Spec.is_upper, toUpperCase_char. intros H.
  destruct (97 <=? nat_of_ascii c)%nat eqn:E; [|done].
  apply Nat.leb_le in E. lia.
Qed.

Lemma toUpperCase_fixed_string (s : string) :
  Spec.code_chars s -> toUpperCase s = s.
Proof.
  unfold Spec.code_chars. induction s as [|c s IH]; simpl; [done|].
  intros H. inversion H; subst. by rewrite toUpperCase_fixed, IH.
Qed.

Lemma toUpperCase_same_letter (a b : ascii) :
  Spec.same_letter a b -> Spec.is_digit b \/ Spec.is_upper b -> toUpperCase_char a = b.
Proof.
  intros [->|[[Ha Hb]|[Hb _]]] Hcode.
  - by apply toUpperCase_fixed.
  - unfold toUpperCase_char, Spec.is_lower in *.
    destruct (97 <=? nat_of_ascii a)%nat eqn:E1; [|apply Nat.leb_gt in E1; lia].
    destruct (nat_of_ascii a <=? 122)%nat eqn:E2; [|apply Nat.leb_gt in E2; lia].
    simpl. rewrite <- Hb. apply ascii_nat_embedding.
  - unfold Spec.is_lower, Spec.is_digit, Spec.is_upper in *. lia.
Qed.

Lemma toUpperCase_string_of_list (l : list ascii) :
  toUpperCase (string_of_list_ascii l) = string_of_list_ascii (map toUpperCase_char l).
Proof. induction l as [|c l IH]; simpl; [done|]. by rewrite IH. Qed.

Lemma substring_string_of_list (n : nat) (l : list ascii) :
  String.substring 0 n (string_of_list_ascii l) = string_of_list_ascii (take n l).
Proof.
  revert l. induction n as [|n IH]; intros [|c l]; simpl; try done.
  by rewrite IH.
Qed.

Lemma length_string_of_list (l : list ascii) :
  String.length (string_of_list_ascii l) = length l.
Proof. induction l as [|c l IH]; simpl; [done|]. by rewrite IH. Qed.

(** The code is made of the first six digits printed after the point. *)
Lemma new_code_digits (frac : list nat) :
  Index.new_code frac
  = string_of_list_ascii (map toUpperCase_char (take 6 (map digit36 frac))).
Proof.
  unfold Index.new_code, substring, toString36. destruct frac as [|d ds]; [done|].
  change (String.substring 2 (8 - 2) ("0." +:+ string_of_list_ascii (map digit36 (d :: ds))))
    with (String.substring 0 6 (string_of_list_ascii (map digit36 (d :: ds)))).
  by rewrite substring_string_of_list, toUpperCase_string_of_list.
Qed.

Lemma case_variant_upper (entered code : string) :
  Spec.case_variant entered code -> Spec.code_chars code -> toUpperCase entered = code.
Proof.
  unfold Spec.code_chars. revert code.
  induction entered as [|a v IH]; intros [|b c]; simpl; try done.
  intros [Hab Hvc] Hcode. inversion Hcode as [|? ? Hb Hc]; subst.
  by rewrite (toUpperCase_same_letter a b), (IH c).
Qed.

Lemma code_chars_ascii (a b : ascii) :
  Spec.same_letter a b -> Spec.is_digit b \/ Spec.is_upper b -> (nat_of_ascii a <? 128)%nat = true.
Proof.
  unfold Spec.same_letter, Spec.is_digit, Spec.is_upper, Spec.is_lower.
  intros Hab Hb. apply Nat.ltb_lt. destruct Hab as [->|[[Ha _]|[Hlow _]]]; lia.
Qed.

Lemma case_variant_ascii (entered code : string) :
  Spec.case_variant entered code -> Spec.code_chars code -> ascii_only entered = true.
Proof.
  unfold Spec.code_chars, ascii_only. revert code.
  induction entered as [|a v IH]; intros [|b c]; simpl; try done.
  intros [Hab Hvc] Hcode. inversion Hcode as [|? ? Hb Hc]; subst.
  by rewrite (code_chars_ascii a b), (IH c).
Qed.

(** [joinLobby] keeps the lobby that its lookup, made under the upper-cased
    code, resolves to. *)
Lemma joinLobby_takes_lookup (h : LobbyPage.Hooks) (lobbyCode : string)
    (srv : LobbyPage.Server) (live : LobbyPage.Hooks) (l : LobbyPage.Lobby.t) :
  LobbyPage.select_lobby srv [("code", Some (VStr (toUpperCase lobbyCode)))]
  = Returns (Some l) None ->
  LobbyPage.lobby (LobbyPage.joinLobby h lobbyCode srv live).1 = Some l.
Proof.
  intros Hsel. unfold LobbyPage.joinLobby, LobbyPage.fetchPlayers. rewrite Hsel.
  repeat case_match; simplify_eq; reflexivity.
Qed.

(** C7: the code that [createLobby] inserts has at most 6 characters, all of
    them digits or upper-case letters.  [joinLobby] looks the lobby up under
    the upper-cased entry and takes the lobby that this lookup resolves to.
    So an entry that spells a code in any mix of cases makes the query of
    the code itself, selects the same rows in any database, resolves to the
    lobby that the code resolves to, and makes [joinLobby] run as with the
    code itself. *)
Theorem lobby_code_shape (frac : list nat) :
  (forall h res op,
     In op (writes (Index.createLobby h frac res)) ->
     exists r, op = Insert Lobbies [r] /\ r !! "code" = Some (VStr (Index.new_code frac))) /\
  (String.length (Index.new_code frac) <= 6)%nat /\
  Spec.code_chars (Index.new_code frac) /\
  (forall h lobbyCode srv live l,
     ascii_only lobbyCode = true ->
     LobbyPage.select_lobby srv [("code", Some (VStr (toUpperCase lobbyCode)))]
     = Returns (Some l) None ->
     LobbyPage.lobby (LobbyPage.joinLobby h lobbyCode srv live).1 = Some l) /\
  (forall entered,
     Spec.case_variant entered (Index.new_code frac) ->
     ascii_only entered = true /\
     toUpperCase entered = Index.new_code frac /\
     (forall d,
        select d Lobbies [("code", Some (VStr (toUpperCase entered)))]
        = select d Lobbies [("code", Some (VStr (Index.new_code frac)))]) /\
     (forall h srv live l,
        LobbyPage.select_lobby srv [("code", Some (VStr (Index.new_code frac)))]
        = Returns (Some l) None ->
        LobbyPage.lobby (LobbyPage.joinLobby h entered srv live).1 = Some l /\
        LobbyPage.lobby (LobbyPage.joinLobby h (Index.new_code frac) srv live).1 = Some l) /\
     (forall h srv live,
        LobbyPage.joinLobby h entered srv live
        = LobbyPage.joinLobby h (Index.new_code frac) srv live)).
Proof.
  assert (Spec.code_chars (Index.new_code frac)) as Hchars.
  { unfold Spec.code_chars. rewrite new_code_digits, list_ascii_of_string_of_list_ascii.
    apply Forall_forall. intros c Hc. apply list_elem_of_In in Hc.
    apply in_map_iff in Hc as (c0 & <- & Hc0).
    apply list_elem_of_In, elem_of_take in Hc0 as (i & Hi & _).
    apply list_elem_of_lookup_2, list_elem_of_In, in_map_iff in Hi as (d & <- & _).
    apply toUpperCase_digit36. }
  split; [|split; [|split; [done|split]]].
  - intros h res op Hin. unfold Index.createLobby in Hin.
    destruct (Index.user h); [|done]. destruct (blank _); [done|].
    destruct res as [[?|] [?|]]; simpl in Hin; destruct Hin as [<-|[]];
      eexists; split; reflexivity.
  - rewrite new_code_digits, length_string_of_list, length_map, length_take. lia.
  - intros h lobbyCode srv live l _. apply joinLobby_takes_lookup.
  - intros entered Hvar.
    pose proof (case_variant_upper _ _ Hvar Hchars) as Hup.
    split; [by eapply case_variant_ascii|].
    split; [done|]. split; [intros d; by rewrite Hup|]. split.
    + intros h srv live l Hsel. split; apply joinLobby_takes_lookup.
      * by rewrite Hup.
      * by rewrite (toUpperCase_fixed_string _ Hchars).
    + intros h srv live. unfold LobbyPage.joinLobby.
      by rewrite Hup, (toUpperCase_fixed_string _ Hchars).
Qed.

Lemma lobby_code_shape_witness :
  ascii_only "iZa012" = true /\
  toUpperCase "iZa012" = Index.new_code [18; 35; 10; 0; 1; 2; 3; 4]%nat /\
  (forall d,
     select d Lobbies [("code", Some (VStr (toUpperCase "iZa012")))]
     = select d Lobbies
         [("code", Some (VStr (Index.new_code [18; 35; 10; 0; 1; 2; 3; 4]%nat)))]) /\
  (forall h srv live l,
     LobbyPage.select_lobby srv
       [("code", Some (VStr (Index.new_code [18; 35; 10; 0; 1; 2; 3; 4]%nat)))]
     = Returns (Some l) None ->
     LobbyPage.lobby (LobbyPage.joinLobby h "iZa012" srv live).1 = Some l /\
     LobbyPage.lobby
       (LobbyPage.joinLobby h (Index.new_code [18; 35; 10; 0; 1; 2; 3; 4]%nat) srv live).1
     = Some l) /\
  (forall h srv live,
     LobbyPage.joinLobby h "iZa012" srv live
     = LobbyPage.joinLobby h (Index.new_code [18; 35; 10; 0; 1; 2; 3; 4]%nat) srv live).
Proof.
  apply (proj2 (proj2 (proj2 (proj2 (lobby_code_shape [18; 35; 10; 0; 1; 2; 3; 4]%nat))))
           "iZa012").
  change (Index.new_code [18; 35; 10; 0; 1; 2; 3; 4]%nat) with "IZA012"%string.
  unfold Spec.case_variant, Spec.same_letter, Spec.is_lower. simpl.
  repeat split; try (left; reflexivity); right; left; (split; [vm_compute; lia|reflexivity]).
Defined.

(** On the sample server, which knows the lobby under "IZA012" only, the
    entry "iza012" ends on the lobby. *)
Example joinLobby_sample :
  LobbyPage.lobby
    (LobbyPage.joinLobby (Sample.lobby_page (Some "user-2") None) "iza012" Sample.by_code
       (Sample.lobby_page (Some "user-2") None)).1
  = Some Sample.lobby.
Proof. reflexivity. Qed.

(** A long fraction gives six characters, a short one fewer, zero none. *)
Example new_code_samples :
  Index.new_code [18; 35; 10; 0; 1; 2; 3; 4]%nat = "IZA012" /\
  Index.new_code [18]%nat = "I" /\
  Index.new_code [] = "".
Proof. repeat split. Qed.

End Codes.

(** ** Row-level security *)

Section Policies.
Import Js Db Ui.

Lemma existsb_none {A} (f : A -> bool) (l : list A) :
  (forall x, f x = false) -> existsb f l = false.
Proof. intros Hf. induction l as [|x l IH]; simpl; [done|]. by rewrite Hf, IH. Qed.

Lemma member_of_lobby_anonymous d r : member_of_lobby d None r = false.
Proof.
  unfold member_of_lobby. apply existsb_none. intros gp.
  unfold owned_by. apply andb_false_r.
Qed.

Lemma with_check_insert_anonymous d t r :
  t <> Targets -> with_check_insert d None t r = false.
Proof. destruct t; simpl; try done. intros _. apply member_of_lobby_anonymous. Qed.

Lemma using_update_anonymous t r : t <> Targets -> using_update None t r = false.
Proof. by destruct t. Qed.

Lemma using_delete_closed auth t r : t <> Targets -> using_delete auth t r = false.
Proof. by destruct t. Qed.

Lemma map_unchanged {A} (f : A -> A) (l : list A) : (forall x, f x = x) -> map f l = l.
Proof. intros Hf. induction l as [|x l IH]; simpl; [done|]. by rewrite Hf, IH. Qed.

Lemma filter_all {A} (f : A -> bool) (l : list A) :
  (forall x, f x = true) -> List.filter f l = l.
Proof. intros Hf. induction l as [|x l IH]; simpl; [done|]. by rewrite Hf, IH. Qed.

(** No DELETE reaches a table other than [targets]. *)
Lemma exec_delete_closed auth gen d t fs t' :
  t <> Targets -> exec auth gen d (Delete t fs) t' = d t'.
Proof.
  intros Ht. simpl. unfold set_table. destruct (Table_eqb t t') eqn:E; [|done].
  apply Table_eqb_eq in E as <-. apply filter_all. intros r.
  by rewrite using_delete_closed, andb_false_r.
Qed.

(** X1: with nobody signed in ([auth.uid()] is NULL), no statement changes
    any table but [targets]. *)
Theorem anonymous_writes_only_targets gen_random_uuid (d : db) (op : dbop) (t : Table) :
  t <> Targets -> exec None gen_random_uuid d op t = d t.
Proof.
  intros Ht. destruct (Table_eqb (table_of op) t) eqn:E.
  - apply Table_eqb_eq in E. destruct op as [t0 rows|t0 payload fs|t0 fs]; simpl in E; subst t0.
    + simpl. destruct rows as [|r rows].
      * simpl. rewrite set_table_same. apply app_nil_r.
      * simpl. by rewrite with_check_insert_anonymous, andb_false_r.
    + simpl. destruct (forallb _ _); [|done]. rewrite set_table_same.
      apply map_unchanged. intros r. by rewrite using_update_anonymous, andb_false_r.
    + by apply exec_delete_closed.
  - apply exec_other_table. intros Heq. apply Table_eqb_eq in Heq. congruence.
Qed.

Lemma anonymous_writes_only_targets_witness :
  exec None (fun _ => "lobby-2") Sample.one_lobby Sample.start Lobbies
  = Sample.one_lobby Lobbies.
Proof. apply anonymous_writes_only_targets. discriminate. Defined.

(** X2: on [profiles], [lobbies] and [game_players], an UPDATE run as a
    user changes only rows whose owner column is that user, every row it
    changes still has that owner afterwards, and a DELETE removes nothing. *)
Theorem rls_owner_only auth gen_random_uuid (d : db) (t : Table) (col : string)
    (payload : row) (fs : list filter) :
  Props.owner_column t = Some col ->
  Forall2 (fun r r' => r' = r \/ (owned_by auth col r = true /\ owned_by auth col r' = true))
          (d t) (exec auth gen_random_uuid d (Update t payload fs) t) /\
  exec auth gen_random_uuid d (Delete t fs) t = d t.
Proof.
  intros Hcol. split; [by apply update_owner_rows|].
  apply exec_delete_closed. intros ->. discriminate.
Qed.

Lemma rls_owner_only_witness :
  Forall2 (fun r r' => r' = r \/ (owned_by (Some "user-2") "host_id" r = true /\
                                  owned_by (Some "user-2") "host_id" r' = true))
          (Sample.one_lobby Lobbies)
          (exec (Some "user-2") (fun _ => "x") Sample.one_lobby Sample.start Lobbies) /\
  exec (Some "user-2") (fun _ => "x") Sample.one_lobby
    (Delete Lobbies [("id", Some (VStr "lobby-1"))]) Lobbies
  = Sample.one_lobby Lobbies.
Proof. apply (rls_owner_only (Some "user-2") _ _ Lobbies "host_id"). reflexivity. Defined.

(** X3: the policy of [targets] lets anyone, signed in or not, delete the
    targets of any lobby: after [DELETE ... WHERE lobby_id = l] none is left. *)
Theorem anyone_deletes_targets auth gen_random_uuid (d : db) (lobby : string) :
  Forall (fun r : row => r !! "lobby_id" <> Some (VStr lobby))
         (exec auth gen_random_uuid d
            (Delete Targets [("lobby_id", Some (VStr lobby))]) Targets).
Proof.
  simpl. rewrite set_table_same. apply Forall_forall. intros r Hin.
  apply list_elem_of_In, List.filter_In in Hin as [_ Hkeep].
  intros Hl. rewrite andb_true_r in Hkeep. unfold matches in Hkeep. simpl in Hkeep.
  unfold matches_filter in Hkeep. simpl in Hkeep. rewrite Hl in Hkeep. simpl in Hkeep.
  by rewrite String.eqb_refl in Hkeep.
Qed.

End Policies.

(** ** What the clients make of the database *)

Section ClientInvariants.
Import Js Db Ui.

Lemma generateTargets_client_op h random op :
  In op (writes (Game.generateTargets h random)) -> Props.client_op op.
Proof.
  unfold Game.generateTargets. destruct (Game.lobbyId h); simpl; [|done].
  intros [<-|[]]. constructor.
Qed.

(** Every statement of a handler is one of the eleven forms. *)
Lemma issues_client_op op : Spec.issues op -> Props.client_op op.
Proof.
  revert op. intros op0 [h frac res op Hin|code op Hin|h op Hin
         |h lobbyCode srv live op Hin|h error op Hin
         |h op Hin|h players random live op Hin|h pr tr live op Hin|h random live op Hin
         |h deltaTime op Hin|h x y op Hin|h op Hin].
  - unfold Index.createLobby in Hin. destruct (Index.user h); [|done].
    destruct (blank _); [done|].
    destruct res as [[?|] [?|]]; simpl in Hin; destruct Hin as [<-|[]]; constructor.
  - unfold Index.joinLobby in Hin. by destruct (blank code).
  - unfold Index.joinLobbyByCode, Index.joinLobby in Hin. by destruct (blank _).
  - unfold LobbyPage.joinLobby, LobbyPage.fetchPlayers in Hin.
    repeat case_match; simpl in Hin; simplify_eq; simpl in Hin;
      repeat (destruct Hin as [<-|Hin]; [constructor|]); done.
  - destruct (startGame_host _ _ _ Hin) as (l & -> & _). constructor.
  - unfold LobbyPage.leaveLobby in Hin.
    destruct (LobbyPage.lobby h), (LobbyPage.user h); simpl in Hin; try done.
    destruct Hin as [<-|[<-|[]]]; constructor.
  - unfold Game.initializeGame in Hin.
    destruct (Game.lobbyId h) eqn:Hl, (Game.user h); simpl in Hin; try done.
    by eapply generateTargets_client_op.
  - unfold Game.fetchGameState in Hin. by repeat case_match.
  - unfold Game.nextWave in Hin. simpl in Hin. unfold writes in Hin.
    rewrite omap_app in Hin. simpl in Hin. rewrite app_nil_r in Hin.
    by eapply generateTargets_client_op.
  - destruct (updatePlayerPosition_cases h deltaTime) as [E|(me & lobby & _ & _ & _ & E)];
      rewrite E in Hin; simpl in Hin; [done|].
    destruct Hin as [<-|[]]. constructor.
  - unfold Game.shoot in Hin.
    destruct (Game.myPlayer h) as [me|]; [|done].
    destruct (Game.lobbyId h) as [lobby|]; [|done].
    destruct (find _ _) as [hit|]; [|done].
    destruct (Game.Target.health hit - 1 <=? 0) eqn:Hdead; simpl in Hin.
    + destruct Hin as [<-|[<-|[<-|[]]]]; constructor.
    + apply Z.leb_gt in Hdead. destruct Hin as [<-|[<-|[]]]; by constructor.
  - unfold Game.leaveGame in Hin.
    destruct (Game.lobbyId h), (Game.user h); simpl in Hin; try done.
    destruct Hin as [<-|[]]. constructor.
Qed.

Lemma exec_length_insert auth gen d t rows t' :
  (length (d t') <= length (exec auth gen d (Insert t rows) t'))%nat.
Proof.
  simpl. destruct (forallb _ _); [|done]. unfold set_table.
  destruct (Table_eqb t t') eqn:E; [|done].
  apply Table_eqb_eq in E as <-. rewrite length_app. lia.
Qed.

Lemma exec_length_update auth gen d t payload fs t' :
  length (exec auth gen d (Update t payload fs) t') = length (d t').
Proof.
  simpl. destruct (forallb _ _); [|done]. unfold set_table.
  destruct (Table_eqb t t') eqn:E; [|done].
  apply Table_eqb_eq in E as <-. apply length_map.
Qed.

(** X4: no statement of the client ever removes a row, from any table and
    whoever runs it: the only DELETE it sends is on [game_players], where
    no policy allows one. *)
Theorem client_never_removes_rows (op : dbop) auth gen_random_uuid (d : db) (t : Table) :
  Spec.issues op ->
  (length (d t) <= length (exec auth gen_random_uuid d op t))%nat /\
  (forall t' fs, op = Delete t' fs -> exec auth gen_random_uuid d op t = d t).
Proof.
  intros Hop%issues_client_op.
  destruct Hop; try (split; [apply exec_length_insert|done]);
    try (split; [by rewrite exec_length_update|done]).
  split; [by rewrite exec_delete_closed|]. intros t' fs' _. by apply exec_delete_closed.
Qed.

(** The host's row is in the table, the delete of [leaveLobby] selects it,
    and it stays. *)
Lemma client_never_removes_rows_witness :
  length (select Sample.in_play GamePlayers
            [("lobby_id", Some (VStr "lobby-1")); ("player_id", Some (VStr "user-1"))]) = 1%nat /\
  (length (Sample.in_play GamePlayers)
   <= length (exec (Some "user-1") (fun _ => "x") Sample.in_play Sample.leave GamePlayers))%nat /\
  exec (Some "user-1") (fun _ => "x") Sample.in_play Sample.leave GamePlayers
  = Sample.in_play GamePlayers.
Proof.
  split; [vm_compute; reflexivity|].
  destruct (client_never_removes_rows Sample.leave (Some "user-1") (fun _ => "x")
              Sample.in_play GamePlayers) as [Hlen Hsame].
  - apply (Spec.by_leaveLobby (Sample.lobby_page (Some "user-1") (Some Sample.lobby))).
    simpl. left. reflexivity.
  - split; [exact Hlen|]. exact (Hsame _ _ eq_refl).
Defined.

Lemma membership_no_column lobby_id user (c : string) :
  c <> "lobby_id" -> c <> "player_id" -> LobbyPage.membership lobby_id user !! c = None.
Proof.
  intros H1 H2. unfold LobbyPage.membership. destruct user; simpl.
  - rewrite !lookup_insert_ne by done. apply lookup_empty.
  - by apply lookup_singleton_ne.
Qed.

(** X5: in every database the clients can produce, every player still has
    the health 100 and is alive: no handler ever writes damage. *)
Theorem players_never_damaged (d : db) :
  Spec.reachable d -> Forall Props.unharmed (d GamePlayers).
Proof.
  induction 1 as [|d profile _ IH|d auth gen op _ IH Hop]; [constructor|done|].
  apply issues_client_op in Hop. apply exec_preserves; [| |done].
  - intros rows i r -> Hin _. inversion Hop; subst. destruct Hin as [<-|[]].
    unfold Props.unharmed, stored.
    rewrite !lookup_union_r by (by apply membership_no_column). by split.
  - intros payload fs r -> [Hh Ha]. unfold Props.unharmed.
    inversion Hop; subst.
    + rewrite !updated_lookup_other by (by apply position_payload_other). by split.
    + rewrite !updated_lookup_other by (by apply lookup_singleton_ne). by split.
Qed.

Lemma players_never_damaged_witness :
  Forall Props.unharmed
    (exec (Some "user-2") (fun _ => "gp-2") Sample.one_lobby
       (Insert GamePlayers [LobbyPage.membership "lobby-1" (Some "user-2")]) GamePlayers).
Proof.
  apply players_never_damaged.
  apply Spec.reach_exec.
  - apply sample_one_lobby_reachable.
  - apply (Spec.by_joinLobby (Sample.lobby_page (Some "user-2") None) "iza012"
             Sample.no_join (Sample.lobby_page (Some "user-2") None)).
    simpl. left. reflexivity.
Defined.

(** X6: in every database the clients can produce, every lobby is waiting
    or playing (none is ever finished) and still has the capacity 4 and the
    wave number 1 it was created with. *)
Theorem lobbies_as_created (d : db) :
  Spec.reachable d -> Forall Props.lobby_as_created (d Lobbies).
Proof.
  induction 1 as [|d profile _ IH|d auth gen op _ IH Hop]; [constructor|done|].
  apply issues_client_op in Hop. apply exec_preserves; [| |done].
  - intros rows i r -> Hin _. inversion Hop; subst. destruct Hin as [<-|[]].
    unfold Props.lobby_as_created. split; [by left|]. by split.
  - intros payload fs r -> (Hs & Hm & Hw). unfold Props.lobby_as_created.
    inversion Hop; subst.
    + rewrite !updated_lookup_other by (by apply lookup_singleton_ne). by split.
    + rewrite (updated_lookup_set _ _ "status" (VStr "playing")) by apply lookup_singleton_eq.
      rewrite !updated_lookup_other by (by apply lookup_singleton_ne).
      split; [by right|]. by split.
Qed.

Lemma lobbies_as_created_witness :
  Forall Props.lobby_as_created
    (exec (Some "user-1") (fun _ => "x") Sample.one_lobby Sample.start Lobbies).
Proof.
  apply lobbies_as_created.
  apply Spec.reach_exec.
  - apply sample_one_lobby_reachable.
  - apply (Spec.by_startGame (Sample.lobby_page (Some "user-1") (Some Sample.lobby)) None).
    simpl. left. reflexivity.
Defined.

(** X7: of the five event types the schema allows, the clients only ever
    log 'hit' and 'target_destroyed'. *)
Theorem events_hit_or_destroyed (d : db) :
  Spec.reachable d -> Forall Props.hit_or_destroyed (d GameEvents).
Proof.
  induction 1 as [|d profile _ IH|d auth gen op _ IH Hop]; [constructor|done|].
  apply issues_client_op in Hop. apply exec_preserves; [| |done].
  - intros rows i r -> Hin _. inversion Hop; subst. destruct Hin as [<-|[]].
    unfold Props.hit_or_destroyed, stored, Game.shot_event.
    destruct (newHealth <=? 0); [right|left]; reflexivity.
  - intros payload fs r -> _. inversion Hop.
Qed.

Lemma sample_joined_reachable : Spec.reachable Sample.joined.
Proof.
  apply Spec.reach_exec; [apply sample_one_lobby_reachable|].
  apply (Spec.by_joinLobby (Sample.lobby_page (Some "user-1") None) "iza012"
           Sample.by_code (Sample.lobby_page (Some "user-1") None)).
  simpl. left. reflexivity.
Qed.

(** The host signs up, creates the lobby, joins it and destroys a target:
    the event is stored, and it is a 'target_destroyed'. *)
Lemma events_hit_or_destroyed_witness :
  map (fun r : row => r !! "event_type") (Sample.shot GameEvents)
  = [Some (VStr "target_destroyed")] /\
  Forall Props.hit_or_destroyed (Sample.shot GameEvents).
Proof.
  split; [vm_compute; reflexivity|].
  apply events_hit_or_destroyed.
  apply Spec.reach_exec; [apply sample_joined_reachable|].
  apply (Spec.by_shoot (Sample.game [Sample.weak] ∅) 100 100).
  vm_compute. right. right. left. reflexivity.
Defined.



End ClientInvariants.

(** ** Joining, starting and leaving a lobby *)

Section LobbyLife.
Import Js Db Ui.

(** X9: whatever the server answers, [joinLobby] ends in exactly one of two
    ways: it navigates to "/" once and leaves [loading] as it was, or it
    does not navigate and clears [loading]. *)
Theorem joinLobby_outcome (h : LobbyPage.Hooks) (lobbyCode : string)
    (srv : LobbyPage.Server) (live : LobbyPage.Hooks) :
  (List.filter (fun e => match e with Navigate _ => true | _ => false end)
     (LobbyPage.joinLobby h lobbyCode srv live).2 = [Navigate "/"] /\
   LobbyPage.loading (LobbyPage.joinLobby h lobbyCode srv live).1 = LobbyPage.loading live) \/
  (List.filter (fun e => match e with Navigate _ => true | _ => false end)
     (LobbyPage.joinLobby h lobbyCode srv live).2 = [] /\
   LobbyPage.loading (LobbyPage.joinLobby h lobbyCode srv live).1 = false).
Proof.
  unfold LobbyPage.joinLobby, LobbyPage.fetchPlayers.
  repeat case_match; simplify_eq; simpl; auto.
Qed.

(** X10: whatever the server answers, [joinLobby] sends nothing, or the
    insert of the membership alone, or that insert followed by one update
    that sets the player count of the lobby found to its count plus one:
    the count is never written without the membership, and a user already
    in the lobby writes nothing. *)
Theorem joinLobby_statements (h : LobbyPage.Hooks) (lobbyCode : string)
    (srv : LobbyPage.Server) (live : LobbyPage.Hooks) :
  (writes (LobbyPage.joinLobby h lobbyCode srv live).2 = [] \/
   exists l,
     LobbyPage.select_lobby srv [("code", Some (VStr (toUpperCase lobbyCode)))]
     = Returns (Some l) None /\
     (writes (LobbyPage.joinLobby h lobbyCode srv live).2
      = [Insert GamePlayers [LobbyPage.membership (LobbyPage.Lobby.id l) (LobbyPage.user h)]] \/
      writes (LobbyPage.joinLobby h lobbyCode srv live).2
      = [Insert GamePlayers [LobbyPage.membership (LobbyPage.Lobby.id l) (LobbyPage.user h)];
         Update Lobbies
           {[ "current_players" := VInt (LobbyPage.Lobby.current_players l + 1) ]}
           [("id", Some (VStr (LobbyPage.Lobby.id l)))]])) /\
  (forall l existing e,
     LobbyPage.select_lobby srv [("code", Some (VStr (toUpperCase lobbyCode)))]
     = Returns (Some l) None ->
     LobbyPage.select_player srv [("lobby_id", Some (VStr (LobbyPage.Lobby.id l)));
                                  ("player_id", str (LobbyPage.user h))]
     = Returns (Some existing) e ->
     writes (LobbyPage.joinLobby h lobbyCode srv live).2 = []).
Proof.
  split.
  - unfold LobbyPage.joinLobby, LobbyPage.fetchPlayers.
    destruct (LobbyPage.select_lobby srv _) as [|[l|] [e|]] eqn:Hsel; simpl; auto.
    repeat case_match; simplify_eq; simpl; eauto.
  - intros l existing e Hsel Hex.
    unfold LobbyPage.joinLobby, LobbyPage.fetchPlayers. rewrite Hsel, Hex.
    by repeat case_match.
Qed.

Lemma joinLobby_statements_witness :
  writes (LobbyPage.joinLobby (Sample.lobby_page (Some "user-2") None) "iza012"
            (Props.answering (Returns (Some Sample.lobby) None)
               (LobbyPage.Build_Server (fun _ => Throws)
                  (fun _ => Returns (Some ∅) None) (fun _ => Throws)
                  (fun _ _ => Throws) (fun _ => Throws)))
            (Sample.lobby_page (Some "user-2") None)).2 = [].
Proof.
  apply (proj2 (joinLobby_statements (Sample.lobby_page (Some "user-2") None) "iza012" _ _)
           Sample.lobby ∅ None).
  - reflexivity.
  - reflexivity.
Defined.

(** X11: [joinLobby] reads neither the capacity nor the status of the lobby
    it finds: had the lookup returned the same lobby full, or already
    playing, the handler would have done exactly the same. *)
Theorem joinLobby_ignores_capacity (h : LobbyPage.Hooks) (lobbyCode : string)
    (srv : LobbyPage.Server) (live : LobbyPage.Hooks)
    (l : LobbyPage.Lobby.t) (max_players : Z) (status : string) :
  (LobbyPage.joinLobby h lobbyCode
     (Props.answering
        (Returns (Some (Props.with_capacity_status max_players status l)) None) srv) live).2
  = (LobbyPage.joinLobby h lobbyCode (Props.answering (Returns (Some l) None) srv) live).2.
Proof.
  unfold LobbyPage.joinLobby, LobbyPage.fetchPlayers. simpl.
  repeat case_match; simplify_eq; reflexivity.
Qed.

(** X12: leaving removes nothing: for any signed-in user and any database,
    the statements of [leaveGame] change no table, and those of [leaveLobby]
    change no table but [lobbies], where they can only change lobbies that
    the leaving user hosts. *)
Theorem leaving_keeps_membership auth gen_random_uuid (d : db) :
  (forall h t, exec_all auth gen_random_uuid d (writes (Game.leaveGame h)) t = d t) /\
  (forall h,
     (forall t, t <> Lobbies ->
        exec_all auth gen_random_uuid d (writes (LobbyPage.leaveLobby h)) t = d t) /\
     Forall2 (fun r r' => r' = r \/ owned_by auth "host_id" r = true)
       (d Lobbies) (exec_all auth gen_random_uuid d (writes (LobbyPage.leaveLobby h)) Lobbies)).
Proof.
  split.
  - intros h t. unfold Game.leaveGame.
    destruct (Game.lobbyId h), (Game.user h); try done.
    change (exec auth gen_random_uuid d
              (Delete GamePlayers [("lobby_id", Some (VStr s)); ("player_id", Some (VStr s0))]) t
            = d t).
    by apply exec_delete_closed.
  - intros h. unfold LobbyPage.leaveLobby.
    destruct (LobbyPage.lobby h) as [l|], (LobbyPage.user h) as [u|];
      try (split; [done|apply Forall2_unchanged; by left]).
    simpl writes. rewrite exec_all_cons, exec_all_one. split.
    + intros t Ht. rewrite exec_other_table by (simpl; congruence).
      by apply exec_delete_closed.
    + pose proof (update_owner_rows auth gen_random_uuid
                    (exec auth gen_random_uuid d
                       (Delete GamePlayers [("lobby_id", Some (VStr (LobbyPage.Lobby.id l)));
                                            ("player_id", Some (VStr u))]))
                    Lobbies "host_id"
                    {[ "current_players" :=
                         VInt (Math_max_Z 0 (LobbyPage.Lobby.current_players l - 1)) ]}
                    [("id", Some (VStr (LobbyPage.Lobby.id l)))] eq_refl) as Hown.
      rewrite (exec_delete_closed _ _ _ GamePlayers _ Lobbies) in Hown at 1 by done.
      eapply Forall2_impl; [exact Hown|]. intros r r' [->|[Ho _]]; auto.
Qed.

End LobbyLife.

(** ** Creating, finding and starting a lobby *)

Section LobbyRows.
Import Js Db Ui.

Lemma matches_id (r : row) (i : string) :
  r !! "id" = Some (VStr i) -> matches [("id", Some (VStr i))] r = true.
Proof.
  intros Hr. unfold matches, matches_filter. simpl. rewrite Hr. simpl.
  by rewrite String.eqb_refl.
Qed.

Lemma owned_by_lookup (u o col : string) (r : row) :
  r !! col = Some (VStr o) -> owned_by (Some u) col r = String.eqb u o.
Proof. intros Hr. unfold owned_by. by rewrite Hr. Qed.

(** The update of [startGame] is never rejected. *)
Lemma exec_start_rows auth gen (d : db) (fs : list filter) :
  exec auth gen d (Update Lobbies {[ "status" := VStr "playing" ]} fs) Lobbies
  = map (fun r => if matches fs r && owned_by auth "host_id" r
                  then updated {[ "status" := VStr "playing" ]} r else r) (d Lobbies).
Proof.
  simpl. destruct (forallb _ (d Lobbies)) eqn:Hall; [by rewrite set_table_same|].
  exfalso. apply not_true_iff_false in Hall. apply Hall. apply forallb_forall. intros r _.
  destruct (matches fs r && owned_by auth "host_id" r) eqn:Hhit; [simpl|done].
  apply andb_true_iff in Hhit as [_ Ho]. apply andb_true_iff. split.
  - unfold check_in. by rewrite (updated_lookup_set _ _ "status" (VStr "playing"))
      by apply lookup_singleton_eq.
  - unfold owned_by in *. by rewrite updated_lookup_other by (by apply lookup_singleton_ne).
Qed.

(** X13: when the host starts the game, on a database where the lobby of
    the page is hosted by that user, every row of that lobby gets the status
    'playing', the other lobbies stay as they are, and the lobby is no
    longer among the rows [fetchLobbies] lists, however the server sorts. *)
Theorem started_lobby_unlisted (h : LobbyPage.Hooks) (error : option string)
    (l : LobbyPage.Lobby.t) (order : list row -> list row) gen_random_uuid (d : db) :
  LobbyPage.lobby h = Some l ->
  LobbyPage.user h = Some (LobbyPage.Lobby.host_id l) ->
  (forall rs, order rs ≡ₚ rs) ->
  (forall r, In r (d Lobbies) -> r !! "id" = Some (VStr (LobbyPage.Lobby.id l)) ->
             r !! "host_id" = Some (VStr (LobbyPage.Lobby.host_id l))) ->
  (forall r,
     In r (exec_all (LobbyPage.user h) gen_random_uuid d
             (writes (LobbyPage.startGame h error)) Lobbies) ->
     r !! "id" = Some (VStr (LobbyPage.Lobby.id l)) ->
     r !! "status" = Some (VStr "playing")) /\
  Forall2 (fun r r' : row => r !! "id" <> Some (VStr (LobbyPage.Lobby.id l)) -> r' = r)
    (d Lobbies)
    (exec_all (LobbyPage.user h) gen_random_uuid d
       (writes (LobbyPage.startGame h error)) Lobbies) /\
  Forall (fun r : row => r !! "id" <> Some (VStr (LobbyPage.Lobby.id l)))
    (Listing.fetchLobbies_rows order
       (exec_all (LobbyPage.user h) gen_random_uuid d (writes (LobbyPage.startGame h error)))).
Proof.
  intros Hl Hu Hperm Hhost.
  assert (writes (LobbyPage.startGame h error)
          = [Update Lobbies {[ "status" := VStr "playing" ]}
               [("id", Some (VStr (LobbyPage.Lobby.id l)))]]) as ->.
  { unfold LobbyPage.startGame. rewrite Hl, Hu. simpl. rewrite String.eqb_refl. simpl.
    by destruct error. }
  rewrite exec_all_one, Hu.
  assert (forall r,
            In r (exec (Some (LobbyPage.Lobby.host_id l)) gen_random_uuid d
                    (Update Lobbies {[ "status" := VStr "playing" ]}
                       [("id", Some (VStr (LobbyPage.Lobby.id l)))]) Lobbies) ->
            r !! "id" = Some (VStr (LobbyPage.Lobby.id l)) ->
            r !! "status" = Some (VStr "playing")) as Hplaying.
  { intros r Hin Hid. rewrite exec_start_rows in Hin.
    apply in_map_iff in Hin as (r0 & <- & Hr0).
    destruct (matches _ r0 && owned_by _ "host_id" r0) eqn:Hhit.
    - apply updated_lookup_set, lookup_singleton_eq.
    - rewrite (matches_id _ _ Hid), (owned_by_lookup _ _ _ _ (Hhost _ Hr0 Hid)) in Hhit.
      by rewrite String.eqb_refl in Hhit. }
  split; [exact Hplaying|]. split.
  - rewrite exec_start_rows. apply Forall2_map_self.
    intros r Hid. destruct (matches _ r) eqn:Hm; [|done].
    exfalso. apply Hid. apply (matches_str _ _ _ _ Hm). simpl. auto.
  - apply Forall_forall. intros r Hin Hid.
    unfold Listing.fetchLobbies_rows in Hin.
    apply elem_of_take in Hin as (i & Hin & _). apply list_elem_of_lookup_2 in Hin.
    rewrite (Hperm _) in Hin. apply list_elem_of_In in Hin.
    unfold select in Hin. apply List.filter_In in Hin as [Hin Hwait].
    pose proof (Hplaying r Hin Hid) as Hs.
    pose proof (matches_str _ _ "status" "waiting" Hwait ltac:(simpl; auto)). congruence.
Qed.

Lemma started_lobby_unlisted_witness :
  (forall r,
     In r (exec_all (Some "user-1") (fun _ => "x") Sample.one_lobby
             (writes (LobbyPage.startGame
                        (Sample.lobby_page (Some "user-1") (Some Sample.lobby)) None)) Lobbies) ->
     r !! "id" = Some (VStr "lobby-1") -> r !! "status" = Some (VStr "playing")) /\
  Forall2 (fun r r' : row => r !! "id" <> Some (VStr "lobby-1") -> r' = r)
    (Sample.one_lobby Lobbies)
    (exec_all (Some "user-1") (fun _ => "x") Sample.one_lobby
       (writes (LobbyPage.startGame
                  (Sample.lobby_page (Some "user-1") (Some Sample.lobby)) None)) Lobbies) /\
  Forall (fun r : row => r !! "id" <> Some (VStr "lobby-1"))
    (Listing.fetchLobbies_rows (fun rs => rs)
       (exec_all (Some "user-1") (fun _ => "x") Sample.one_lobby
          (writes (LobbyPage.startGame
                     (Sample.lobby_page (Some "user-1") (Some Sample.lobby)) None)))).
Proof.
  apply (started_lobby_unlisted (Sample.lobby_page (Some "user-1") (Some Sample.lobby))
           None Sample.lobby (fun rs => rs) (fun _ => "x") Sample.one_lobby).
  - reflexivity.
  - reflexivity.
  - reflexivity.
  - intros r Hin _. vm_compute in Hin. destruct Hin as [<-|[]]. reflexivity.
Defined.

End LobbyRows.

(** ** From the landing page to the lobby *)

Section Landing.
Import Js Db Ui.














End Landing.

(** ** The game page: fetches and waves *)

Section Waves.
Import Js Db Ui.

Lemma nextWave_batch (h : Game.Hooks) (lobby : string) (random : nat -> Q) (live : Game.Hooks) :
  Game.lobbyId h = Some lobby ->
  writes (Game.run_callback NextWave h random live).2
  = [Insert Targets
       (Game.generate_loop lobby random 0 (Z.to_nat (Game.targetsToGenerate h)))].
Proof. intros Hl. simpl. unfold Game.generateTargets. by rewrite Hl. Qed.

Lemma writes_app (es es' : list effect) : writes (es ++ es') = writes es ++ writes es'.
Proof. unfold writes. apply omap_app. Qed.

(** X16: every fetch that finds no active target arms a timer of its own,
    and every timer that fires runs [nextWave]: [n] such fetches before the
    first timer fires advance the wave by [n], not by one, and insert [n]
    batches of targets, all of the size computed from the wave number in
    the handlers' closure. *)
Theorem empty_fetches_stack_waves (h : Game.Hooks) (lobby : string)
    (results : list (option (list Game.Player.t))) (randoms : list (nat -> Q))
    (live later : Game.Hooks) :
  Game.lobbyId h = Some lobby ->
  (Props.refetch h results live).2 = repeat (SetTimeout NextWave 2000) (length results) /\
  Game.wave (Game.gameState (Props.fire h randoms later).1)
  = Game.wave (Game.gameState later) + Z.of_nat (length randoms) /\
  length (writes (Props.fire h randoms later).2) = length randoms /\
  Forall (fun op => exists batch,
            op = Insert Targets batch /\
            length batch = Z.to_nat (Z.min (5 + Game.wave (Game.gameState h)) 15))
         (writes (Props.fire h randoms later).2).
Proof.
  intros Hl. split; [|split; [|split]].
  - revert live. induction results as [|pr rest IH]; intros live; simpl; [done|].
    rewrite IH. unfold Game.fetchGameState. by rewrite Hl.
  - revert later. induction randoms as [|random rest IH]; intros later.
    + simpl. lia.
    + cbn [Props.fire fst snd length]. rewrite IH. simpl. lia.
  - revert later. induction randoms as [|random rest IH]; intros later; [done|].
    cbn [Props.fire fst snd length]. rewrite writes_app, length_app, IH.
    by rewrite (nextWave_batch h lobby).
  - revert later. induction randoms as [|random rest IH]; intros later; [constructor|].
    cbn [Props.fire fst snd]. rewrite writes_app, (nextWave_batch h lobby) by done.
    constructor; [|apply IH].
    eexists. split; [reflexivity|]. by rewrite generate_loop_length.
Qed.

Lemma empty_fetches_stack_waves_witness :
  (Props.refetch (Sample.game [] ∅) [None; Some [Sample.me]] (Sample.game [] ∅)).2
  = repeat (SetTimeout NextWave 2000) 2 /\
  Game.wave (Game.gameState
    (Props.fire (Sample.game [] ∅) [Sample.random; Sample.random] (Sample.game [] ∅)).1)
  = 1 + 2 /\
  length (writes (Props.fire (Sample.game [] ∅) [Sample.random; Sample.random]
                    (Sample.game [] ∅)).2) = 2%nat /\
  Forall (fun op => exists batch,
            op = Insert Targets batch /\ length batch = Z.to_nat (Z.min (5 + 1) 15))
         (writes (Props.fire (Sample.game [] ∅) [Sample.random; Sample.random]
                    (Sample.game [] ∅)).2).
Proof.
  apply (empty_fetches_stack_waves (Sample.game [] ∅) "lobby-1").
  reflexivity.
Defined.

(** X17: the game never ends: in every state the page can reach the status
    is 'playing' or 'wave_complete', never 'game_over'. *)
Theorem never_game_over (h : Game.Hooks) :
  Spec.game_state h -> Game.gameStatus (Game.gameState h) <> Game.game_over.
Proof.
  induction 1 as [l u|h ps random live _ IH|h pr tr live _ IH|h random live _ IH|ks live _ IH];
    try done.
  - unfold Game.initializeGame. by repeat case_match.
  - unfold Game.fetchGameState. by repeat case_match.
Qed.

Lemma never_game_over_witness :
  Game.gameStatus (Game.gameState
    (Game.fetchGameState (Sample.game [] ∅) None (Some []) (Game.initial (Some "lobby-1") None)).1)
  <> Game.game_over.
Proof.
  apply never_game_over. apply Spec.gs_fetchGameState. apply Spec.gs_initial.
Defined.

(** X18: a fetch never clears [myPlayer]: afterwards it is what it was, or
    it is the first row of the players result that carries the signed-in
    user's id.  A player whose row is gone from the result stays on the page. *)
Theorem fetch_keeps_myPlayer (h : Game.Hooks)
    (playersResult : option (list Game.Player.t)) (targetsResult : option (list Game.Target.t))
    (live : Game.Hooks) :
  (Game.myPlayer (Game.fetchGameState h playersResult targetsResult live).1
   = Game.myPlayer live \/
   exists ps before me after,
     playersResult = Some ps /\ ps = before ++ me :: after /\
     Game.user h = Some (Game.Player.player_id me) /\
     Forall (fun p => Game.user h <> Some (Game.Player.player_id p)) before /\
     Game.myPlayer (Game.fetchGameState h playersResult targetsResult live).1 = Some me) /\
  (Game.myPlayer live <> None ->
   Game.myPlayer (Game.fetchGameState h playersResult targetsResult live).1 <> None).
Proof.
  assert (forall me, find (fun p => same_id (Game.Player.player_id p) (Game.user h))
                       (default [] playersResult) = Some me ->
                     exists ps before after,
                       playersResult = Some ps /\ ps = before ++ me :: after /\
                       Game.user h = Some (Game.Player.player_id me) /\
                       Forall (fun p => Game.user h <> Some (Game.Player.player_id p)) before)
    as Hfound.
  { intros me Hfind. destruct playersResult as [ps|]; [|done]. simpl in Hfind.
    apply find_Some in Hfind as (before & after & -> & Hme & Hbefore).
    exists (before ++ me :: after), before, after. repeat split.
    - unfold same_id in Hme. destruct (Game.user h) as [u|]; [|done].
      by apply String.eqb_eq in Hme as ->.
    - eapply Forall_impl; [exact Hbefore|]. intros p Hp Hu. rewrite Hu in Hp.
      simpl in Hp. by rewrite String.eqb_refl in Hp. }
  unfold Game.fetchGameState.
  destruct (Game.lobbyId h); [|split; [by left|done]].
  destruct playersResult as [ps|]; simpl in Hfound.
  - destruct (find _ ps) as [me|] eqn:Hfind.
    + destruct (Hfound me eq_refl) as (ps' & before & after & [= <-] & -> & Hu & Hb).
      split; [right; exists (before ++ me :: after), before, me, after|];
        repeat case_match; simplify_eq; simpl; repeat split; done.
    + split; [left|]; repeat case_match; simplify_eq; simpl; done.
  - split; [left|]; repeat case_match; simplify_eq; simpl; done.
Qed.

Lemma fetch_keeps_myPlayer_witness :
  Game.myPlayer (Game.fetchGameState (Sample.game [] ∅) (Some []) None (Sample.game [] ∅)).1
  <> None.
Proof.
  apply (proj2 (fetch_keeps_myPlayer (Sample.game [] ∅) (Some []) None (Sample.game [] ∅))).
  discriminate.
Defined.

End Waves.

(** ** The game page: keys and frames *)

Section Frames.
Import Js Db Ui.

(** X19: keys (with ASCII names, as the letters and the arrows have) are
    held by their lower-cased name: releasing a key in any letter case
    releases what was pressed in any other ("W" down, "w" up with the shift
    key let go in between), the other keys are as they were, and pressing
    then releasing a key that was not held gives back the set of keys there
    was. *)
Theorem key_released_in_any_case (down up : string) (prev : gset string) :
  ascii_only down = true ->
  ascii_only up = true ->
  toLowerCase down = toLowerCase up ->
  (toLowerCase down ∉ Play.handleKeyUp up (Play.handleKeyDown down prev)) /\
  (forall k, k <> toLowerCase down ->
     k ∈ Play.handleKeyUp up (Play.handleKeyDown down prev) <-> k ∈ prev) /\
  (toLowerCase down ∉ prev ->
   Play.handleKeyUp up (Play.handleKeyDown down prev) = prev).
Proof.
  intros _ _ Hsame. unfold Play.handleKeyUp, Play.handleKeyDown. rewrite <- Hsame.
  split; [|split].
  - rewrite elem_of_difference, elem_of_singleton. tauto.
  - intros k Hk. rewrite elem_of_difference, elem_of_union, !elem_of_singleton. tauto.
  - intros Hfree. apply set_eq. intros k.
    rewrite elem_of_difference, elem_of_union, !elem_of_singleton.
    split; [tauto|]. intros Hk. split; [tauto|]. congruence.
Qed.

Lemma key_released_in_any_case_witness :
  ("w" ∉ Play.handleKeyUp "w" (Play.handleKeyDown "W" {["d"]})) /\
  (forall k, k <> "w" ->
     k ∈ Play.handleKeyUp "w" (Play.handleKeyDown "W" {["d"]}) <-> k ∈ ({["d"]} : gset string)) /\
  ("w" ∉ ({["d"]} : gset string) ->
   Play.handleKeyUp "w" (Play.handleKeyDown "W" {["d"]}) = {["d"]}).
Proof.
  apply (key_released_in_any_case "W" "w" {["d"]}); reflexivity.
Defined.

Lemma clamp_spec (lo hi v : Q) :
  exists m M : Q,
    Math_min hi v = m /\ Math_max lo (Math_min hi v) = M /\
    (((hi < v)%Q /\ (m == hi)%Q) \/ ((v <= hi)%Q /\ (m == v)%Q)) /\
    (((lo < m)%Q /\ (M == m)%Q) \/ ((m <= lo)%Q /\ (M == lo)%Q)).
Proof.
  exists (Qmin hi v), (Qmax lo (Qmin hi v)). unfold Math_max, Math_min.
  split; [done|]. split; [done|]. split; [apply Q.min_spec|apply Q.max_spec].
Qed.

Lemma clamp_inside (lo hi v : Q) :
  (lo <= v)%Q -> (v <= hi)%Q -> (Math_max lo (Math_min hi v) == v)%Q.
Proof.
  intros Hlo Hhi. destruct (clamp_spec lo hi v) as (m & M & _ & -> & Hm & HM).
  destruct Hm as [[? ?]|[? ?]], HM as [[? ?]|[? ?]]; lra.
Qed.


Lemma has_setKeys (f : gset string -> gset string) (h : Game.Hooks) (k : string) :
  Game.has (Play.setKeys f h) k = bool_decide (k ∈ f (Game.keys h)).
Proof. reflexivity. Qed.

(** X20: from no key held, pressing "w" or the up arrow (in any letter
    case) makes the next frame of positive time step write a position for a
    player inside the field and not on its top border: the same
    [position_x], and a [position_y] that is smaller, though never under 20. *)
Theorem up_key_moves_up (h : Game.Hooks) (me : Game.Player.t) (lobby key : string)
    (deltaTime : Q) :
  Game.myPlayer h = Some me ->
  Game.lobbyId h = Some lobby ->
  Game.keys h = ∅ ->
  toLowerCase key = "w" \/ toLowerCase key = "arrowup" ->
  (0 < deltaTime)%Q ->
  (20 <= Game.Player.position_x me)%Q /\ (Game.Player.position_x me <= 780)%Q ->
  (20 < Game.Player.position_y me)%Q /\ (Game.Player.position_y me <= 580)%Q ->
  Game.updatePlayerPosition (Play.setKeys (Play.handleKeyDown key) h) deltaTime
  = [Write (Update GamePlayers
              (Spec.position_payload
                 (Game.new_position (Play.setKeys (Play.handleKeyDown key) h) me deltaTime))
              (Game.own_row h lobby))] /\
  ((Game.new_position (Play.setKeys (Play.handleKeyDown key) h) me deltaTime).1
   == Game.Player.position_x me)%Q /\
  ((Game.new_position (Play.setKeys (Play.handleKeyDown key) h) me deltaTime).2
   < Game.Player.position_y me)%Q /\
  (20 <= (Game.new_position (Play.setKeys (Play.handleKeyDown key) h) me deltaTime).2)%Q.
Proof.
  intros Hme Hl Hkeys Hkey Hdt [Hx0 Hx1] [Hy0 Hy1].
  assert (Game.has (Play.setKeys (Play.handleKeyDown key) h) "w"
          || Game.has (Play.setKeys (Play.handleKeyDown key) h) "arrowup" = true) as Hup.
  { rewrite !has_setKeys, Hkeys. unfold Play.handleKeyDown.
    destruct Hkey as [-> | ->]; apply orb_true_iff; [left|right];
      apply bool_decide_eq_true; set_solver. }
  assert (forall k, In k ["s"; "arrowdown"; "a"; "arrowleft"; "d"; "arrowright"] ->
                    Game.has (Play.setKeys (Play.handleKeyDown key) h) k = false) as Hother.
  { intros k Hk. rewrite has_setKeys, Hkeys. unfold Play.handleKeyDown.
    apply bool_decide_eq_false. rewrite elem_of_union, elem_of_singleton.
    intros [Hin|Heq]; [set_solver|].
    simpl in Hk. destruct Hkey as [Hw|Hw]; rewrite Hw in Heq;
      repeat (destruct Hk as [<-|Hk]; [discriminate|]); done. }
  assert (Game.new_position (Play.setKeys (Play.handleKeyDown key) h) me deltaTime
          = (Math_max 20 (Math_min 780 (Game.Player.position_x me)),
             Math_max 20 (Math_min 580 (Game.Player.position_y me - Game.speed * deltaTime))))
    as Hpos.
  { unfold Game.new_position. rewrite Hup.
    rewrite !Hother by (simpl; auto 10). reflexivity. }
  assert ((Math_max 20 (Math_min 780 (Game.Player.position_x me))
           == Game.Player.position_x me)%Q) as Hx by (apply clamp_inside; lra).
  assert ((Math_max 20 (Math_min 580 (Game.Player.position_y me - Game.speed * deltaTime))
           < Game.Player.position_y me)%Q) as Hy.
  { unfold Game.speed.
    destruct (clamp_spec 20 580 (Game.Player.position_y me - 200 * deltaTime))
      as (m & M & _ & -> & Hm & HM).
    destruct Hm as [[? ?]|[? ?]], HM as [[? ?]|[? ?]]; lra. }
  split; [|rewrite Hpos; simpl; split; [exact Hx|split; [exact Hy|]]].
  - change (Game.own_row h lobby)
      with (Game.own_row (Play.setKeys (Play.handleKeyDown key) h) lobby).
    apply (updatePlayerPosition_moved _ me lobby); [done|done|].
    unfold Spec.moved. rewrite Hpos. simpl. intros [_ Hsame]. lra.
  - apply clamp_bounds. lra.
Qed.

Lemma up_key_moves_up_witness :
  ((Game.new_position (Play.setKeys (Play.handleKeyDown "ArrowUp") (Sample.game [] ∅))
      Sample.me (1 # 10)).2 < 50)%Q.
Proof.
  apply (up_key_moves_up (Sample.game [] ∅) Sample.me "lobby-1" "ArrowUp" (1 # 10)).
  - reflexivity.
  - reflexivity.
  - reflexivity.
  - right. reflexivity.
  - reflexivity.
  - split; simpl; lra.
  - split; simpl; lra.
Defined.

End Frames.

(** ** The game page: what a frame can do *)

Section FrameSteps.
Import Js Db Ui.






(** X22: with no movement key held, the position computed is the current
    one clamped to the field, so a player inside the field is not written
    at all, whatever the time step. *)
Theorem idle_player_stays (h : Game.Hooks) (me : Game.Player.t) (deltaTime : Q) :
  Game.myPlayer h = Some me ->
  (forall k, In k Props.movement_keys -> Game.has h k = false) ->
  Game.new_position h me deltaTime
  = (Math_max 20 (Math_min 780 (Game.Player.position_x me)),
     Math_max 20 (Math_min 580 (Game.Player.position_y me))) /\
  ((20 <= Game.Player.position_x me)%Q /\ (Game.Player.position_x me <= 780)%Q ->
   (20 <= Game.Player.position_y me)%Q /\ (Game.Player.position_y me <= 580)%Q ->
   Game.updatePlayerPosition h deltaTime = []).
Proof.
  intros Hme Hidle.
  assert (Game.new_position h me deltaTime
          = (Math_max 20 (Math_min 780 (Game.Player.position_x me)),
             Math_max 20 (Math_min 580 (Game.Player.position_y me)))) as Hpos.
  { unfold Game.new_position. rewrite !Hidle by (unfold Props.movement_keys; simpl; auto 10).
    reflexivity. }
  split; [exact Hpos|]. intros [Hx0 Hx1] [Hy0 Hy1].
  destruct (updatePlayerPosition_cases h deltaTime) as [E|(me' & lobby & Hme' & _ & Hmv & _)];
    [done|].
  assert (me' = me) as -> by congruence.
  exfalso. apply Hmv. rewrite Hpos. simpl. split; by apply clamp_inside.
Qed.

Lemma idle_player_stays_witness :
  Game.updatePlayerPosition (Sample.game [] ∅) (1 # 2) = [].
Proof.
  apply (idle_player_stays (Sample.game [] ∅) Sample.me (1 # 2)).
  - reflexivity.
  - intros k Hk. reflexivity.
  - simpl. lra.
  - simpl. lra.
Defined.

End FrameSteps.

(** ** The game page: targets, from generation to destruction *)

Section TargetLife.
Import Js Db Ui.

(** X23: when [Math.random] returns binary64 numbers of [0, 1), every
    target that [generateTargets] inserts lies on the canvas ([position_x]
    in [0, 800), [position_y] in [0, 600)), belongs to the lobby of the page
    and is active. *)
Theorem generated_targets_on_canvas (h : Game.Hooks) (random : nat -> Q)
    (newTargets : list row) (target : row) :
  (forall i, double (random i)) ->
  (forall i, (0 <= random i)%Q /\ (random i < 1)%Q) ->
  In (Insert Targets newTargets) (writes (Game.generateTargets h random)) ->
  In target newTargets ->
  exists x y lobby,
    target !! "position_x" = Some (VReal x) /\ ((0 <= x)%Q /\ (x < 800)%Q) /\
    target !! "position_y" = Some (VReal y) /\ ((0 <= y)%Q /\ (y < 600)%Q) /\
    Game.lobbyId h = Some lobby /\ target !! "lobby_id" = Some (VStr lobby) /\
    target !! "is_active" = Some (VBool true).
Proof.
  intros Hdbl Hrnd Hop Hin. unfold Game.generateTargets in Hop.
  destruct (Game.lobbyId h) as [lobby|]; simpl in Hop; [|done].
  destruct Hop as [[= <-]|[]].
  apply generate_loop_In in Hin as (j & _ & ->).
  destruct (Hrnd (3 * j + 1)%nat) as [Hx0 Hx1], (Hrnd (3 * j + 2)%nat) as [Hy0 Hy1].
  exists (mul (random (3 * j + 1)%nat) 800), (mul (random (3 * j + 2)%nat) 600), lobby.
  split; [reflexivity|]. split.
  { apply scaled_random; [apply Hdbl|done|done|reflexivity|].
    unfold Qlt. vm_compute. reflexivity. }
  split; [reflexivity|]. split.
  { apply scaled_random; [apply Hdbl|done|done|reflexivity|].
    unfold Qlt. vm_compute. reflexivity. }
  repeat split; reflexivity.
Qed.

Lemma generated_targets_on_canvas_witness :
  exists x y lobby,
    Game.new_target "lobby-1" Sample.random 1 !! "position_x" = Some (VReal x) /\
    ((0 <= x)%Q /\ (x < 800)%Q) /\
    Game.new_target "lobby-1" Sample.random 1 !! "position_y" = Some (VReal y) /\
    ((0 <= y)%Q /\ (y < 600)%Q) /\
    Game.lobbyId (Sample.game [] ∅) = Some lobby /\
    Game.new_target "lobby-1" Sample.random 1 !! "lobby_id" = Some (VStr lobby) /\
    Game.new_target "lobby-1" Sample.random 1 !! "is_active" = Some (VBool true).
Proof.
  apply (generated_targets_on_canvas (Sample.game [] ∅) Sample.random
           (Game.generate_loop "lobby-1" Sample.random 0 6)).
  - apply sample_random_double.
  - apply sample_random_unit.
  - simpl. left. reflexivity.
  - simpl. right. left. reflexivity.
Defined.

(** X24: darker targets give more points and take fewer hits: of two
    targets made by the loop of [generateTargets], the one with the smaller
    [color_intensity] has at least the points of the other and at most its
    health. *)
Theorem darker_scores_more (lobby : string) (random : nat -> Q) (i j : nat) :
  (random (3 * i)%nat <= random (3 * j)%nat)%Q ->
  exists pi pj hi hj,
    Game.new_target lobby random i !! "points" = Some (VInt pi) /\
    Game.new_target lobby random j !! "points" = Some (VInt pj) /\
    Game.new_target lobby random i !! "health" = Some (VInt hi) /\
    Game.new_target lobby random j !! "health" = Some (VInt hj) /\
    pj <= pi /\ hi <= hj.
Proof.
  intros Hle. eexists _, _, _, _.
  split; [reflexivity|]. split; [reflexivity|]. split; [reflexivity|].
  split; [reflexivity|]. split.
  - unfold Math_ceil, mul, sub. apply Qceiling_resp_le, round64_mono.
    assert (round64 (1 - random (3 * j)%nat) <= round64 (1 - random (3 * i)%nat))%Q
      by (apply round64_mono; lra).
    lra.
  - assert (Qceiling (mul (random (3 * i)%nat) 3) <= Qceiling (mul (random (3 * j)%nat) 3))
      by (unfold mul; apply Qceiling_resp_le, round64_mono; lra).
    unfold Math_ceil. lia.
Qed.

Lemma darker_scores_more_witness :
  exists pi pj hi hj,
    Game.new_target "lobby-1" Sample.random 0 !! "points" = Some (VInt pi) /\
    Game.new_target "lobby-1" Sample.random 2 !! "points" = Some (VInt pj) /\
    Game.new_target "lobby-1" Sample.random 0 !! "health" = Some (VInt hi) /\
    Game.new_target "lobby-1" Sample.random 2 !! "health" = Some (VInt hj) /\
    pj <= pi /\ hi <= hj.
Proof.
  apply (darker_scores_more "lobby-1" Sample.random 0 2).
  unfold Sample.random, Qle. simpl. lia.
Defined.




Lemma exec_deactivate_rows auth gen (d : db) (fs : list filter) :
  Forall (fun r => check_constraint Targets r = true) (d Targets) ->
  exec auth gen d (Update Targets {[ "is_active" := VBool false ]} fs) Targets
  = map (fun r => if matches fs r then updated {[ "is_active" := VBool false ]} r else r)
        (d Targets).
Proof.
  intros Hok. simpl. destruct (forallb _ (d Targets)) eqn:Hall.
  - rewrite set_table_same. apply map_ext. intros r. by rewrite andb_true_r.
  - exfalso. apply not_true_iff_false in Hall. apply Hall. apply forallb_forall.
    intros r Hin. rewrite Forall_forall in Hok.
    specialize (Hok r ltac:(by apply list_elem_of_In)).
    rewrite !andb_true_r. destruct (matches fs r); [simpl|done].
    unfold check_constraint in *.
    by rewrite updated_lookup_other by (by apply lookup_singleton_ne).
Qed.

(** X26: once the statements of a lethal shot have run, on a database whose
    targets satisfy their CHECK, the target is gone from what
    [fetchGameState] selects: no active target of any lobby has its id. *)
Theorem destroyed_target_not_fetched (h : Game.Hooks) (me : Game.Player.t)
    (lobby : string) (x y : Q) (t : Game.Target.t) auth gen_random_uuid (d : db)
    (fetched : string) :
  Game.myPlayer h = Some me ->
  Game.lobbyId h = Some lobby ->
  Spec.first_within x y (Game.targets (Game.gameState h)) t ->
  Game.Target.health t - 1 <= 0 ->
  Forall (fun r => check_constraint Targets r = true) (d Targets) ->
  Forall (fun r : row => r !! "id" <> Some (VStr (Game.Target.id t)))
    (select (exec_all auth gen_random_uuid d (writes (Game.shoot h x y)))
       Targets (Play.active_targets fetched)).
Proof.
  intros Hme Hl Hfirst%find_first_within Hdead%Z.leb_le Hok.
  unfold Game.shoot. rewrite Hme, Hl, Hfirst, Hdead. simpl writes.
  apply Forall_forall. intros r Hin Hid. apply list_elem_of_In in Hin.
  unfold select in Hin. apply List.filter_In in Hin as [Hin Hactive].
  rewrite exec_all_cons, exec_all_other_tables in Hin
    by (repeat constructor; simpl; discriminate).
  rewrite exec_deactivate_rows in Hin by done.
  apply in_map_iff in Hin as (r0 & <- & _).
  pose proof (matches_In _ _ "is_active" (Some (VBool true)) Hactive
                ltac:(unfold Play.active_targets; simpl; auto)) as Hflag.
  destruct (matches [("id", Some (VStr (Game.Target.id t)))] r0) eqn:Hm.
  - unfold matches_filter in Hflag. cbn [fst snd] in Hflag.
    by rewrite (updated_lookup_set _ _ "is_active" (VBool false)) in Hflag
      by apply lookup_singleton_eq.
  - by rewrite (matches_id _ _ Hid) in Hm.
Qed.

Lemma destroyed_target_not_fetched_witness :
  Forall (fun r : row => r !! "id" <> Some (VStr "t-weak"))
    (select (exec_all (Some "user-1") (fun _ => "e-1")
               (set_table Targets
                  [list_to_map [("id", VStr "t-weak"); ("lobby_id", VStr "lobby-1");
                                ("color_intensity", VReal (1 # 2));
                                ("is_active", VBool true); ("health", VInt 1)]]
                  Db.empty)
               (writes (Game.shoot (Sample.game [Sample.weak] ∅) 100 100)))
       Targets (Play.active_targets "lobby-1")).
Proof.
  apply (destroyed_target_not_fetched (Sample.game [Sample.weak] ∅) Sample.me "lobby-1"
           100 100 Sample.weak).
  - reflexivity.
  - reflexivity.
  - apply find_first_within. reflexivity.
  - simpl. lia.
  - repeat constructor.
Defined.

End TargetLife.

(** ** The user names of [handle_new_user] *)

Section Usernames.
Import Js Db Ui.

Lemma pretty_N_go_grows (x : N) (s : string) :
  (String.length s <= String.length (pretty_N_go x s))%nat.
Proof.
  revert s. induction (N.lt_wf_0 x) as [x _ IH]. intros s.
  destruct (decide (x = 0%N)) as [->|Hx]; [by rewrite pretty_N_go_0|].
  rewrite pretty_N_go_step by lia.
  specialize (IH (x `div` 10)%N ltac:(apply N.div_lt; lia)
                (String (pretty_N_char (x `mod` 10)) s)).
  simpl in IH. lia.
Qed.

Lemma pretty_positive_not_empty (n : nat) : pretty (Z.of_nat (S n)) <> "".
Proof.
  intros Hempty. assert (String.length (pretty (Z.of_nat (S n))) = 0%nat) as Hlen
    by (by rewrite Hempty).
  change (Z.of_nat (S n)) with (Z.pos (Pos.of_succ_nat n)) in Hlen.
  unfold pretty, pretty_Z, pretty_positive, pretty, pretty_N in Hlen.
  destruct (decide (N.pos (Pos.of_succ_nat n) = 0%N)); [done|].
  rewrite pretty_N_go_step in Hlen by lia.
  pose proof (pretty_N_go_grows (N.pos (Pos.of_succ_nat n) `div` 10)
                (String (pretty_N_char (N.pos (Pos.of_succ_nat n) `mod` 10)) "")) as Hg.
  simpl in Hg. lia.
Qed.

Lemma append_empty (s : string) : s +:+ "" = s.
Proof.
  induction s as [|c s IH]; [done|].
  change (String c (s +:+ "") = String c s). by rewrite IH.
Qed.

(** The names the loop tries are pairwise different. *)
Lemma candidate_inj (username_base : string) (m n : nat) :
  Trigger.candidate username_base m = Trigger.candidate username_base n -> m = n.
Proof.
  destruct m as [|m], n as [|n]; simpl; intros Heq; [done| | |].
  - rewrite <- (append_empty username_base) in Heq at 1.
    apply String.app_inj in Heq. by destruct (pretty_positive_not_empty n).
  - rewrite <- (append_empty username_base) in Heq at 2.
    apply String.app_inj in Heq. by destruct (pretty_positive_not_empty m).
  - apply String.app_inj, pretty_Z_inj in Heq. lia.
Qed.

(** The user names stored in [profiles]. *)
Lemma taken_In (profiles : list row) (name : string) :
  Trigger.taken profiles name = true ->
  exists r, In r profiles /\ r !! "username" = Some (VStr name).
Proof.
  unfold Trigger.taken. rewrite existsb_exists. intros (r & Hin & Hr).
  exists r. split; [done|]. destruct (r !! "username") as [[]|]; try done.
  by apply String.eqb_eq in Hr as ->.
Qed.

Lemma length_omap_le {A B} (f : A -> option B) (l : list A) :
  (length (omap f l) <= length l)%nat.
Proof.
  induction l as [|x l IH]; [done|].
  change (omap f (x :: l)) with (match f x with Some y => y :: omap f l | None => omap f l end).
  destruct (f x); simpl; lia.
Qed.

(** Pigeonhole: [profiles] cannot hold all of the first names tried when
    these are more than its rows. *)
Lemma not_all_taken (profiles : list row) (username_base : string) :
  ~ (forall n, (n <= length profiles)%nat ->
       Trigger.taken profiles (Trigger.candidate username_base n) = true).
Proof.
  intros Hall.
  pose (names := omap (fun r : row => match r !! "username" with
                                      | Some (VStr u) => Some u
                                      | _ => None
                                      end) profiles).
  assert (length names <= length profiles)%nat as Hlen by apply length_omap_le.
  pose (tried := map (Trigger.candidate username_base) (seq 0 (S (length profiles)))).
  assert (List.NoDup tried) as Hnodup.
  { subst tried. apply Finite.Injective_map_NoDup; [|apply seq_NoDup].
    intros m n. apply candidate_inj. }
  assert (incl tried names) as Hincl.
  { intros name Hname. subst tried. apply in_map_iff in Hname as (n & <- & Hn).
    apply in_seq in Hn. destruct (taken_In _ _ (Hall n ltac:(lia))) as (r & Hr & Hu).
    subst names. apply list_elem_of_In, list_elem_of_omap. exists r.
    split; [by apply list_elem_of_In|]. by rewrite Hu. }
  pose proof (NoDup_incl_length Hnodup Hincl) as Hle.
  subst tried. rewrite length_map, length_seq in Hle. lia.
Qed.

(** Up to any bound, either every name tried is taken or there is a first
    free one. *)
Lemma first_free (profiles : list row) (username_base : string) (bound : nat) :
  (forall n, (n < bound)%nat ->
     Trigger.taken profiles (Trigger.candidate username_base n) = true) \/
  exists n, (n < bound)%nat /\
    Trigger.taken profiles (Trigger.candidate username_base n) = false /\
    forall m, (m < n)%nat ->
      Trigger.taken profiles (Trigger.candidate username_base m) = true.
Proof.
  induction bound as [|b [Hall|Hfound]].
  - left. lia.
  - destruct (Trigger.taken profiles (Trigger.candidate username_base b)) eqn:Hb.
    + left. intros n Hn. destruct (decide (n = b)) as [->|]; [done|]. apply Hall. lia.
    + right. exists b. split; [lia|]. split; [done|]. exact Hall.
  - right. destruct Hfound as (n & Hn & Hfree & Hbefore). exists n. split; [lia|done].
Qed.

(** The loop, started at the [k]-th name, stops at the first free name. *)
Lemma unique_username_stops (profiles : list row) (username_base : string)
    (fuel k n : nat) :
  (k <= n < k + fuel)%nat ->
  Z.of_nat n < Trigger.max_integer ->
  (forall m, (k <= m < n)%nat ->
     Trigger.taken profiles (Trigger.candidate username_base m) = true) ->
  Trigger.taken profiles (Trigger.candidate username_base n) = false ->
  Trigger.unique_username fuel profiles username_base
    (Trigger.candidate username_base k) (Z.of_nat k + 1)
  = Some (Some (Trigger.candidate username_base n)).
Proof.
  revert k. induction fuel as [|fuel IH]; intros k Hk Hmax Htaken Hfree; [lia|].
  cbn [Trigger.unique_username].
  destruct (decide (k = n)) as [->|Hne]; [by rewrite Hfree|].
  rewrite Htaken by lia.
  destruct (Trigger.max_integer <=? Z.of_nat k + 1) eqn:Hover;
    [apply Z.leb_le in Hover; lia|].
  replace (Z.of_nat k + 1 + 1) with (Z.of_nat (S k) + 1) by lia.
  replace (username_base +:+ pretty (Z.of_nat k + 1))
    with (Trigger.candidate username_base (S k))
    by (simpl; do 2 f_equal; lia).
  apply IH; [lia|done| |done]. intros m Hm. apply Htaken. lia.
Qed.

(** X27: the loop of [handle_new_user] ends after at most as many rounds as
    there are profiles (fewer than [2^31 - 1] of them, so that the counter
    stays an INTEGER), and the name it ends on is free: the part of the
    e-mail address before '@' if no profile has it, else that part followed
    by the smallest positive number that makes a free name.  More fuel
    gives the same name. *)
Theorem new_username_is_free (profiles : list row) (email : string) (extra : nat) :
  Z.of_nat (length profiles) < Trigger.max_integer ->
  exists n,
    (n <= length profiles)%nat /\
    Trigger.final_username (S (length profiles) + extra) profiles email
    = Some (Some (Trigger.candidate (Trigger.split_part_1 email) n)) /\
    Trigger.taken profiles (Trigger.candidate (Trigger.split_part_1 email) n) = false /\
    (forall m, (m < n)%nat ->
       Trigger.taken profiles (Trigger.candidate (Trigger.split_part_1 email) m) = true).
Proof.
  intros Hsmall.
  destruct (first_free profiles (Trigger.split_part_1 email) (S (length profiles)))
    as [Hall|(n & Hn & Hfree & Hbefore)].
  - destruct (not_all_taken profiles (Trigger.split_part_1 email)).
    intros n Hn. apply Hall. lia.
  - exists n. split; [lia|]. split; [|by split].
    unfold Trigger.final_username.
    apply (unique_username_stops profiles (Trigger.split_part_1 email) _ 0 n);
      [lia|lia| |done].
    intros m Hm. apply Hbefore. lia.
Qed.

Lemma new_username_is_free_witness :
  exists n,
    (n <= 2)%nat /\
    Trigger.final_username 3 [{[ "username" := VStr "ada" ]}; {[ "username" := VStr "ada1" ]}]
      "ada@example.org"
    = Some (Some (Trigger.candidate (Trigger.split_part_1 "ada@example.org") n)) /\
    Trigger.taken [{[ "username" := VStr "ada" ]}; {[ "username" := VStr "ada1" ]}]
      (Trigger.candidate (Trigger.split_part_1 "ada@example.org") n) = false /\
    (forall m, (m < n)%nat ->
       Trigger.taken [{[ "username" := VStr "ada" ]}; {[ "username" := VStr "ada1" ]}]
         (Trigger.candidate (Trigger.split_part_1 "ada@example.org") m) = true).
Proof.
  apply (new_username_is_free
           [{[ "username" := VStr "ada" ]}; {[ "username" := VStr "ada1" ]}]
           "ada@example.org" 0).
  unfold Trigger.max_integer. simpl. lia.
Defined.

(** The sample address gets the name "ada2". *)
Example new_username_sample :
  Trigger.final_username 3 [{[ "username" := VStr "ada" ]}; {[ "username" := VStr "ada1" ]}]
    "ada@example.org" = Some (Some "ada2").
Proof. reflexivity. Qed.

End Usernames.

(** ** Drawing *)

Section Drawing.
Import Js Db Ui.

Lemma in_render_target (h : Game.Hooks) (mousePos : Q * Q) (t : Game.Target.t)
    (c : Play.canvas_op) :
  In t (Game.targets (Game.gameState h)) -> In c (Play.draw_target t) ->
  In c (Play.render h true mousePos).
Proof.
  intros Ht Hc. unfold Play.render. apply in_or_app. right. apply in_or_app. left.
  apply in_flat_map. by exists t.
Qed.

(** X28: a target whose intensity the CHECK of the table admits is drawn
    in a grey that is a colour byte: [render] sets the fill style
    "rgb(g, g, g)" with [g = Math.floor(intensity * 255)], the product
    being that of binary64, and [g] is between 0 and 255. *)
Theorem target_grey_is_a_byte (h : Game.Hooks) (mousePos : Q * Q) (t : Game.Target.t) :
  In t (Game.targets (Game.gameState h)) ->
  (0 <= Game.Target.color_intensity t)%Q /\ (Game.Target.color_intensity t <= 1)%Q ->
  0 <= Play.gray t <= 255 /\
  In (Play.fillStyle ("rgb(" +:+ pretty (Play.gray t) +:+ ", " +:+ pretty (Play.gray t)
                      +:+ ", " +:+ pretty (Play.gray t) +:+ ")"))
     (Play.render h true mousePos).
Proof.
  intros Ht [H0 H1]. split.
  - unfold Play.gray, Math_floor, mul. split.
    + change 0 with (Qfloor 0). apply Qfloor_resp_le, round64_nonneg. lra.
    + transitivity (Qfloor (inject_Z 255)); [|by rewrite Qfloor_Z].
      apply Qfloor_resp_le. change (inject_Z 255) with 255%Q.
      apply round64_le; [apply Qeq_bool_iff; vm_compute; reflexivity|lra].
  - apply (in_render_target h mousePos t); [done|]. unfold Play.draw_target. simpl. by left.
Qed.

Lemma target_grey_is_a_byte_witness :
  0 <= Play.gray Sample.weak <= 255 /\
  In (Play.fillStyle ("rgb(" +:+ pretty (Play.gray Sample.weak) +:+ ", "
                      +:+ pretty (Play.gray Sample.weak) +:+ ", "
                      +:+ pretty (Play.gray Sample.weak) +:+ ")"))
     (Play.render (Sample.game [Sample.far; Sample.weak] ∅) true (0%Q, 0%Q)).
Proof.
  apply (target_grey_is_a_byte (Sample.game [Sample.far; Sample.weak] ∅) (0%Q, 0%Q) Sample.weak).
  - simpl. right. left. reflexivity.
  - simpl. lra.
Defined.

(** The grey of the intensity 0.6 is 153: the product is rounded to 153,
    though the exact product of that binary64 number with 255 is under
    153. *)
Example gray_rounding :
  Play.gray Sample.grey = 153 /\
  Qfloor (Game.Target.color_intensity Sample.grey * 255) = 152.
Proof. split; vm_compute; reflexivity. Qed.





End Drawing.
